(** * Federation engine of the ASP reference implementation

    A shallow embedding of [FederationManager] (federation.ts) and of the
    in-memory persistence port [MemoryFederationStorage]
    (federation-storage.ts), together with the properties the specification
    states about trust, signatures, the outbox log, the delivery queue and
    restart.  The token and signature utilities (auth.ts), the posts and
    challenges of the in-memory content store (storage/memory.ts) and the
    rate limiter and authentication helper of the server (index.ts) are
    embedded as well, with the properties their code shows.

    Conventions of the embedding
    - a JavaScript [Map] is an insertion-ordered association list with unique
      keys ([JSMap]); [Set<string>] used only through has/add/delete is a
      [gset string]; a [Set] that is later turned into an array keeps its
      insertion order ([list string]);
    - a [Date] is its millisecond timestamp ([Z]); an ISO-8601 string written
      by [toISOString] and read back by [new Date] is the same timestamp, and
      comparing two such strings compares the timestamps;
    - counts ([attemptCount], lengths) are natural numbers; a limit a caller
      passes is an integer ([Z]);
    - a method that mutates [this] takes the manager and returns the new
      manager; a method that may throw returns a [Result]; calls into the
      store do not throw;
    - the host environment (network, wall clock, local listeners' side
      effects) is a state [World] threaded through the calls that touch it;
      [ethers] and [JSON.stringify] are interfaces ([Ethers], [JSON]);
    - a listener is a function object with an identity; while it runs it may
      call [onEvent] or an unsubscribe function, which act on the array
      [forEach] is iterating ([RegistryAction]);
    - an asynchronous method is run to completion: what happens between two
      of its suspension points is not interleaved with other calls. *)

From Stdlib Require Import ZArith List Bool Lia Ascii Sorted Permutation.
From stdpp Require Import base option list gmap strings pretty.

#[local] Set Warnings "-clear-no-such-hyp".

Local Open Scope string_scope.
Local Open Scope list_scope.
Local Open Scope Z_scope.

(** ** JavaScript maps: insertion-ordered, one entry per key *)

Module JSMap.

Definition t (V : Type) : Type := list (string * V).

Definition empty {V} : t V := [].

Fixpoint get {V} (k : string) (m : t V) : option V :=
  match m with
  | [] => None
  | (k', v) :: m' => if String.eqb k' k then Some v else get k m'
  end.

Definition has {V} (k : string) (m : t V) : bool :=
  match get k m with Some _ => true | None => false end.

(** [Map.prototype.set]: an existing key keeps its position, a new key is
    appended. *)
Fixpoint set {V} (k : string) (v : V) (m : t V) : t V :=
  match m with
  | [] => [(k, v)]
  | (k', v') :: m' =>
      if String.eqb k' k then (k', v) :: m' else (k', v') :: set k v m'
  end.

Fixpoint delete {V} (k : string) (m : t V) : t V :=
  match m with
  | [] => []
  | (k', v') :: m' =>
      if String.eqb k' k then delete k m' else (k', v') :: delete k m'
  end.

Definition keys {V} (m : t V) : list string := map fst m.
Definition values {V} (m : t V) : list V := map snd m.
Definition size {V} (m : t V) : nat := length m.

(** Number of entries under a key. *)
Definition count {V} (k : string) (m : t V) : nat :=
  length (List.filter (fun kv => String.eqb (fst kv) k) m).

(** What every map built by [set] from [empty] satisfies. *)
Definition wf {V} (m : t V) : Prop := List.NoDup (keys m).

End JSMap.

(** ** Data model (types.ts, federation.ts) *)

Inductive ContentType := TextMarkdown | TextPlain.

Record Post := {
  post_id : string;
  post_author : string;
  post_content : string;
  post_contentType : ContentType;
  post_community : option string;
  post_published : string;
  post_updated : option (option string);
  post_inReplyTo : option (option string);
  post_signature : string
}.

Record Comment := {
  comment_id : string;
  comment_author : string;
  comment_content : string;
  comment_contentType : ContentType;
  comment_inReplyTo : string;
  comment_published : string;
  comment_signature : string
}.

(** [Post | Comment]; the constructor stands for the [type] tag. *)
Inductive ContentObject :=
| ObjPost (p : Post)
| ObjComment (c : Comment).

Inductive EventType := PostCreated | PostDeleted | CommentCreated | CommentDeleted.

Definition EventType_name (t : EventType) : string :=
  match t with
  | PostCreated => "PostCreated"
  | PostDeleted => "PostDeleted"
  | CommentCreated => "CommentCreated"
  | CommentDeleted => "CommentDeleted"
  end.

(** [Omit<FederationEvent, 'signature'>] *)
Record UnsignedEvent := {
  u_type : EventType;
  u_origin : string;
  u_timestamp : string;
  u_object : ContentObject
}.

Record FederationEvent := {
  type : EventType;
  origin : string;
  timestamp : string;
  object : ContentObject;
  signature : string
}.

(** The four values of the type [TrustMode]; the [default] branch of
    [trustsInstance] is for values outside the type. *)
Inductive TrustMode := open | allowlist | blocklist | closed.

Record InstanceTrust := {
  mode : TrustMode;
  trust_allowlist : gset string;
  trust_blocklist : gset string
}.

Record FederationConfig := {
  enabled : bool;
  instanceUri : string;
  trust : InstanceTrust;
  signingKey : option string
}.

Record RemoteInstance := {
  uri : string;
  version : string;
  inbox : option string;
  outbox : option string;
  trustMode : TrustMode;
  lastSeen : Z;
  lastError : option string
}.

Record OutboxEvent := {
  id : string;
  event : FederationEvent;
  created : Z;
  delivered : list string
}.

(** ['pending' | 'delivered' | 'failed'] *)
Module Status.
Inductive t := pending | delivered | failed.

Definition eqb (a b : t) : bool :=
  match a, b with
  | pending, pending | delivered, delivered | failed, failed => true
  | _, _ => false
  end.
End Status.

Record DeliveryAttempt := {
  da_instanceUri : string;
  da_eventId : string;
  attemptCount : nat;
  lastAttempt : Z;
  nextAttempt : Z;
  status : Status.t;
  da_lastError : option string
}.

(** A thrown exception carries its message. *)
Inductive Result (A : Type) :=
| Ok (a : A)
| Throws (message : string).
Arguments Ok {A} a.
Arguments Throws {A} message.

(** Truthiness of an optional string: [undefined] and [''] are falsy. *)
Definition truthy (s : option string) : bool :=
  match s with
  | Some s => negb (String.eqb s "")
  | None => false
  end.

(** ** External interfaces *)

(** The part of [ethers] the manager calls.  [Wallet_address k] is the address
    of [new ethers.Wallet(k)], or what the constructor throws when it rejects
    [k]; [signMessageSync k m] is the signature of that wallet over [m];
    [verifyMessage m sig] is the recovered address, or what ethers throws. *)
Class Ethers := {
  Wallet_address : string -> Result string;
  signMessageSync : string -> string -> string;
  verifyMessage : string -> string -> Result string
}.

(** What message signing with a recoverable signature guarantees: the address
    recovered from a wallet's signature over a message is the wallet's. *)
Class EthersRecovers (E : Ethers) : Prop :=
  recover_signed :
    forall key addr message,
      Wallet_address key = Ok addr ->
      verifyMessage message (signMessageSync key message) = Ok addr.

Class JSON := {
  JSON_stringify : ContentObject -> string
}.

(** The discovery document as far as [discoverInstance] reads it. *)
Record Metadata := {
  md_version : string;
  md_inbox : option string;
  md_outbox : option string;
  md_trustMode : option TrustMode
}.

(** Outcome of [fetch(url)] followed by [response.json()] on the well-known
    document. *)
Inductive WellKnownResponse :=
| WKThrows (message : string)
| WKNotOk
| WKMetadata (md : Metadata).

(** Outcome of the POST to a peer's inbox; [text] is the response body as
    [response.text().catch(() => '')] yields it. *)
Inductive InboxResponse :=
| IRThrows (message : string)
| IRStatus (status : Z) (text : string).

Definition response_ok (status : Z) : bool :=
  (200 <=? status) && (status <=? 299).

(** The host: wall clock and network, over a state [World] that each call may
    change. *)
Class Host (World : Type) := {
  clock : World -> Z;
  toISOString : Z -> string;
  fetch_wellknown : string -> World -> WellKnownResponse * World;
  fetch_inbox : string -> string -> FederationEvent -> World -> InboxResponse * World
}.

(** ** Persistence port (federation-storage.ts) *)

Record PersistedRemoteInstance := {
  p_uri : string;
  p_version : string;
  p_inbox : option string;
  p_outbox : option string;
  p_trustMode : TrustMode;
  p_lastSeen : Z;
  p_lastError : option string;
  isAllowed : bool;
  isBlocked : bool
}.

Record PersistedOutboxEvent := {
  po_id : string;
  po_event : FederationEvent;
  po_created : Z;
  deliveredTo : list string
}.

Record PersistedDeliveryAttempt := {
  key : string;
  pd_instanceUri : string;
  pd_eventId : string;
  pd_attemptCount : nat;
  pd_lastAttempt : Z;
  pd_nextAttempt : Z;
  pd_status : Status.t;
  pd_lastError : option string
}.

(** [Array.prototype.sort] with a comparator that orders by a timestamp: the
    sort is stable, so its result is the one of this insertion sort. *)
Fixpoint insert_by {A} (f : A -> Z) (x : A) (l : list A) : list A :=
  match l with
  | [] => [x]
  | y :: l' => if f x <=? f y then x :: l else y :: insert_by f x l'
  end.

Definition sort_by {A} (f : A -> Z) (l : list A) : list A :=
  foldr (insert_by f) [] l.

(** [limit || dflt] for a count: [undefined] and [0] give the default. *)
Definition limit_or (limit : option nat) (dflt : nat) : nat :=
  match limit with
  | Some (S n) => S n
  | _ => dflt
  end.

(** [MemoryFederationStorage]: three maps, insert-or-update by key. *)
Module MemoryFederationStorage.

Record t := {
  instances : JSMap.t PersistedRemoteInstance;
  outbox : JSMap.t PersistedOutboxEvent;
  deliveryQueue : JSMap.t PersistedDeliveryAttempt
}.

Definition new : t :=
  {| instances := JSMap.empty; outbox := JSMap.empty; deliveryQueue := JSMap.empty |}.

Definition saveInstance (s : t) (instance : PersistedRemoteInstance) : t :=
  {| instances := JSMap.set (p_uri instance) instance (instances s);
     outbox := outbox s;
     deliveryQueue := deliveryQueue s |}.

Definition getInstances (s : t) : list PersistedRemoteInstance :=
  JSMap.values (instances s).

Definition saveOutboxEvent (s : t) (e : PersistedOutboxEvent) : t :=
  {| instances := instances s;
     outbox := JSMap.set (po_id e) e (outbox s);
     deliveryQueue := deliveryQueue s |}.

(** [events.findIndex(e => e.id === since)] *)
Fixpoint findIndex (since : string) (events : list PersistedOutboxEvent) : option nat :=
  match events with
  | [] => None
  | e :: events' =>
      if String.eqb (po_id e) since then Some O
      else option_map S (findIndex since events')
  end.

Definition getOutboxEvents (s : t) (limit : option nat) (since : option string)
  : list PersistedOutboxEvent :=
  let limit := limit_or limit 100 in
  let events := sort_by po_created (JSMap.values (outbox s)) in
  let events :=
    if truthy since then
      match findIndex (default "" since) events with
      | Some sinceIdx => drop (S sinceIdx) events
      | None => events
      end
    else events in
  take limit events.

Definition deleteOutboxEvent (s : t) (id : string) : t :=
  {| instances := instances s;
     outbox := JSMap.delete id (outbox s);
     deliveryQueue := deliveryQueue s |}.

Definition saveDeliveryAttempt (s : t) (a : PersistedDeliveryAttempt) : t :=
  {| instances := instances s;
     outbox := outbox s;
     deliveryQueue := JSMap.set (key a) a (deliveryQueue s) |}.

Definition getPendingDeliveries (s : t) (beforeTime : Z) : list PersistedDeliveryAttempt :=
  sort_by pd_nextAttempt
    (List.filter (fun a => Status.eqb (pd_status a) Status.pending
                           && (pd_nextAttempt a <=? beforeTime))
                 (JSMap.values (deliveryQueue s))).

Definition deleteDeliveryAttempt (s : t) (k : string) : t :=
  {| instances := instances s;
     outbox := outbox s;
     deliveryQueue := JSMap.delete k (deliveryQueue s) |}.

Definition deleteInstance (s : t) (uri : string) : t :=
  {| instances := JSMap.delete uri (instances s);
     outbox := outbox s;
     deliveryQueue := deliveryQueue s |}.

Definition getOutboxEvent (s : t) (id : string) : option PersistedOutboxEvent :=
  JSMap.get id (outbox s).

(** The stored object is changed in place: [deliveredTo.push]. *)
Definition markDelivered (s : t) (eventId instanceUri : string) : t :=
  match JSMap.get eventId (outbox s) with
  | Some e =>
      if existsb (String.eqb instanceUri) (deliveredTo e) then s
      else
        {| instances := instances s;
           outbox :=
             JSMap.set eventId
               {| po_id := po_id e; po_event := po_event e; po_created := po_created e;
                  deliveredTo := deliveredTo e ++ [instanceUri] |}
               (outbox s);
           deliveryQueue := deliveryQueue s |}
  | None => s
  end.

(** One step of a [for ... of] loop that deletes the entries [p] selects and
    counts them. *)
Definition deleteIf {V} (p : V -> bool) (acc : JSMap.t V * nat) (entry : string * V)
  : JSMap.t V * nat :=
  if p (snd entry) then (JSMap.delete (fst entry) (fst acc), S (snd acc)) else acc.

(** [now] is [Date.now()]; returns the number deleted and the store. *)
Definition pruneOldOutboxEvents (s : t) (maxAgeMs : Z) (maxCount : nat) (now : Z)
  : nat * t :=
  let cutoff := now - maxAgeMs in
  let '(box, deleted) :=
    fold_left (deleteIf (fun e => po_created e <? cutoff)) (outbox s) (outbox s, O) in
  let '(box, deleted) :=
    if (maxCount <? JSMap.size box)%nat then
      let sorted := sort_by (fun kv => po_created (snd kv)) box in
      let toDelete := take (length sorted - maxCount) sorted in
      fold_left (fun acc kv => (JSMap.delete (fst kv) (fst acc), S (snd acc)))
                toDelete (box, deleted)
    else (box, deleted) in
  (deleted, {| instances := instances s; outbox := box; deliveryQueue := deliveryQueue s |}).

Definition getDeliveryAttempt (s : t) (k : string) : option PersistedDeliveryAttempt :=
  JSMap.get k (deliveryQueue s).

Definition pruneOldDeliveries (s : t) (olderThan : Z) : nat * t :=
  let '(queue, deleted) :=
    fold_left
      (deleteIf (fun a => negb (Status.eqb (pd_status a) Status.pending)
                          && (pd_lastAttempt a <? olderThan)))
      (deliveryQueue s) (deliveryQueue s, O) in
  (deleted, {| instances := instances s; outbox := outbox s; deliveryQueue := queue |}).

Record DeliveryStats := {
  stats_pending : nat;
  stats_delivered : nat;
  stats_failed : nat
}.

Definition countAttempt (stats : DeliveryStats) (a : PersistedDeliveryAttempt)
  : DeliveryStats :=
  match pd_status a with
  | Status.pending =>
      {| stats_pending := S (stats_pending stats);
         stats_delivered := stats_delivered stats; stats_failed := stats_failed stats |}
  | Status.delivered =>
      {| stats_pending := stats_pending stats;
         stats_delivered := S (stats_delivered stats); stats_failed := stats_failed stats |}
  | Status.failed =>
      {| stats_pending := stats_pending stats;
         stats_delivered := stats_delivered stats; stats_failed := S (stats_failed stats) |}
  end.

Definition getDeliveryStats (s : t) : DeliveryStats :=
  fold_left countAttempt (JSMap.values (deliveryQueue s))
    {| stats_pending := 0; stats_delivered := 0; stats_failed := 0 |}.

End MemoryFederationStorage.

(** ** The federation manager (federation.ts) *)

(** [new Set(array)]: first occurrences, in order. *)
Definition Set_add (s : list string) (x : string) : list string :=
  if existsb (String.eqb x) s then s else s ++ [x].

Definition Set_of_array (l : list string) : list string :=
  fold_left Set_add l [].

(** [id.match(/\/outbox\/(\d+)$/)] followed by [parseInt(.., 10)]. *)
Definition digit_value (c : Ascii.ascii) : option Z :=
  let n := Z.of_N (Ascii.N_of_ascii c) in
  if (48 <=? n) && (n <=? 57) then Some (n - 48) else None.

Fixpoint parse_digits (s : string) (acc : Z) : option Z :=
  match s with
  | EmptyString => Some acc
  | String c s' =>
      match digit_value c with
      | Some d => parse_digits s' (10 * acc + d)
      | None => None
      end
  end.

Fixpoint strip_prefix (p s : string) : option string :=
  match p, s with
  | EmptyString, _ => Some s
  | String a p', String b s' =>
      if Ascii.eqb a b then strip_prefix p' s' else None
  | String _ _, EmptyString => None
  end.

Fixpoint outboxIdNumber (id : string) : option Z :=
  let here :=
    match strip_prefix "/outbox/" id with
    | Some (String c rest) => parse_digits (String c rest) 0
    | _ => None
    end in
  match here with
  | Some n => Some n
  | None =>
      match id with
      | EmptyString => None
      | String _ id' => outboxIdNumber id'
      end
  end.

Definition MAX_RETRY_ATTEMPTS : nat := 5.
Definition RETRY_BACKOFF_MS : list Z := [1000; 5000; 30000; 120000; 600000].

Record PushResult := {
  success : bool;
  error : option string
}.

Record InboundResult := {
  accepted : bool;
  reason : option string
}.

Record MetadataResult := {
  meta_enabled : bool;
  meta_inbox : option string;
  meta_outbox : option string;
  meta_trustMode : TrustMode
}.

Record DrainResult := {
  processed : nat;
  succeeded : nat;
  failed : nat
}.


(** What a listener can do to the manager's registry while it runs: call the
    unsubscribe function [onEvent] returned for the listener of identity [r],
    or register a listener with [onEvent]. *)
Inductive RegistryAction (L : Type) :=
| Unsubscribe (r : nat)
| Subscribe (l : L).
Arguments Unsubscribe {L} r.
Arguments Subscribe {L} l.

Section Manager.

Context {World : Type}.

(** A listener is a function object: its identity (what [indexOf] compares)
    and its behaviour.  A call may change the world, may throw, and may, while
    it runs, act on the registry of listeners ([RegistryAction]). *)
#[local] Set Warnings "-register-all".
Inductive Listener := {
  ref : nat;
  call : FederationEvent -> World -> World * option string * list (RegistryAction Listener)
}.
#[local] Set Warnings "register-all".

Record FederationManager := {
  config : FederationConfig;
  knownInstances : JSMap.t RemoteInstance;
  outboxQueue : JSMap.t OutboxEvent;
  outboxIdCounter : Z;
  eventListeners : list Listener;
  deliveryQueue : JSMap.t DeliveryAttempt;
  storage : option MemoryFederationStorage.t
}.

Definition with_config (m : FederationManager) (c : FederationConfig) :=
  {| config := c; knownInstances := knownInstances m; outboxQueue := outboxQueue m;
     outboxIdCounter := outboxIdCounter m; eventListeners := eventListeners m;
     deliveryQueue := deliveryQueue m; storage := storage m |}.

Definition with_knownInstances (m : FederationManager) (k : JSMap.t RemoteInstance) :=
  {| config := config m; knownInstances := k; outboxQueue := outboxQueue m;
     outboxIdCounter := outboxIdCounter m; eventListeners := eventListeners m;
     deliveryQueue := deliveryQueue m; storage := storage m |}.

Definition with_outboxQueue (m : FederationManager) (q : JSMap.t OutboxEvent) :=
  {| config := config m; knownInstances := knownInstances m; outboxQueue := q;
     outboxIdCounter := outboxIdCounter m; eventListeners := eventListeners m;
     deliveryQueue := deliveryQueue m; storage := storage m |}.

Definition with_outboxIdCounter (m : FederationManager) (n : Z) :=
  {| config := config m; knownInstances := knownInstances m; outboxQueue := outboxQueue m;
     outboxIdCounter := n; eventListeners := eventListeners m;
     deliveryQueue := deliveryQueue m; storage := storage m |}.

Definition with_eventListeners (m : FederationManager) (l : list Listener) :=
  {| config := config m; knownInstances := knownInstances m; outboxQueue := outboxQueue m;
     outboxIdCounter := outboxIdCounter m; eventListeners := l;
     deliveryQueue := deliveryQueue m; storage := storage m |}.

Definition with_deliveryQueue (m : FederationManager) (q : JSMap.t DeliveryAttempt) :=
  {| config := config m; knownInstances := knownInstances m; outboxQueue := outboxQueue m;
     outboxIdCounter := outboxIdCounter m; eventListeners := eventListeners m;
     deliveryQueue := q; storage := storage m |}.

Definition with_storage (m : FederationManager) (s : option MemoryFederationStorage.t) :=
  {| config := config m; knownInstances := knownInstances m; outboxQueue := outboxQueue m;
     outboxIdCounter := outboxIdCounter m; eventListeners := eventListeners m;
     deliveryQueue := deliveryQueue m; storage := s |}.

Definition with_trust (c : FederationConfig) (t : InstanceTrust) : FederationConfig :=
  {| enabled := enabled c; instanceUri := instanceUri c; trust := t;
     signingKey := signingKey c |}.

(** *** Persisting *)

Definition persistInstance (m : FederationManager) (instance : RemoteInstance)
  : FederationManager :=
  match storage m with
  | None => m
  | Some s =>
      with_storage m (Some (MemoryFederationStorage.saveInstance s
        {| p_uri := uri instance;
           p_version := version instance;
           p_inbox := inbox instance;
           p_outbox := outbox instance;
           p_trustMode := trustMode instance;
           p_lastSeen := lastSeen instance;
           p_lastError := lastError instance;
           isAllowed := bool_decide (uri instance ∈ trust_allowlist (trust (config m)));
           isBlocked := bool_decide (uri instance ∈ trust_blocklist (trust (config m))) |}))
  end.

Definition persistOutboxEvent (m : FederationManager) (e : OutboxEvent)
  : FederationManager :=
  match storage m with
  | None => m
  | Some s =>
      with_storage m (Some (MemoryFederationStorage.saveOutboxEvent s
        {| po_id := id e;
           po_event := event e;
           po_created := created e;
           deliveredTo := delivered e |}))
  end.

Definition persistDeliveryAttempt (m : FederationManager) (k : string)
    (attempt : DeliveryAttempt) : FederationManager :=
  match storage m with
  | None => m
  | Some s =>
      with_storage m (Some (MemoryFederationStorage.saveDeliveryAttempt s
        {| key := k;
           pd_instanceUri := da_instanceUri attempt;
           pd_eventId := da_eventId attempt;
           pd_attemptCount := attemptCount attempt;
           pd_lastAttempt := lastAttempt attempt;
           pd_nextAttempt := nextAttempt attempt;
           pd_status := status attempt;
           pd_lastError := da_lastError attempt |}))
  end.

(** *** Trust *)

Definition isEnabled (m : FederationManager) : bool := enabled (config m).

Definition trustsInstance (m : FederationManager) (instanceUri : string) : bool :=
  if negb (enabled (config m)) then false
  else
    let t := trust (config m) in
    match mode t with
    | closed => false
    | open => negb (bool_decide (instanceUri ∈ trust_blocklist t))
    | blocklist => negb (bool_decide (instanceUri ∈ trust_blocklist t))
    | allowlist => bool_decide (instanceUri ∈ trust_allowlist t)
    end.

Definition allowInstance (m : FederationManager) (instanceUri : string)
  : FederationManager :=
  let t := trust (config m) in
  let t1 := {| mode := mode t;
               trust_allowlist := trust_allowlist t ∪ {[instanceUri]};
               trust_blocklist := trust_blocklist t ∖ {[instanceUri]} |} in
  let m1 := with_config m (with_trust (config m) t1) in
  match JSMap.get instanceUri (knownInstances m1) with
  | Some instance => persistInstance m1 instance
  | None => m1
  end.

Definition blockInstance (m : FederationManager) (instanceUri : string)
  : FederationManager :=
  let t := trust (config m) in
  let t1 := {| mode := mode t;
               trust_allowlist := trust_allowlist t ∖ {[instanceUri]};
               trust_blocklist := trust_blocklist t ∪ {[instanceUri]} |} in
  let m1 := with_config m (with_trust (config m) t1) in
  match JSMap.get instanceUri (knownInstances m1) with
  | Some instance => persistInstance m1 instance
  | None => m1
  end.

Definition getMetadata (m : FederationManager) : MetadataResult :=
  if negb (enabled (config m)) then
    {| meta_enabled := false; meta_inbox := None; meta_outbox := None;
       meta_trustMode := closed |}
  else
    {| meta_enabled := true;
       meta_inbox := Some (instanceUri (config m) +:+ "/federation/inbox");
       meta_outbox := Some (instanceUri (config m) +:+ "/federation/outbox");
       meta_trustMode := mode (trust (config m)) |}.

Context {H : Host World} {E : Ethers} {J : JSON}.

(** *** Signature codec *)

Definition signingMessage (t : EventType) (origin timestamp : string)
    (object : ContentObject) : string :=
  EventType_name t +:+ "|" +:+ origin +:+ "|" +:+ timestamp +:+ "|"
    +:+ JSON_stringify object.

Definition signEvent (m : FederationManager) (e : UnsignedEvent)
  : Result FederationEvent :=
  if negb (truthy (signingKey (config m))) then
    Throws "No signing key configured for federation"
  else
    let k := default "" (signingKey (config m)) in
    match Wallet_address k with
    | Throws msg => Throws msg
    | Ok _ =>
        let message :=
          signingMessage (u_type e) (u_origin e) (u_timestamp e) (u_object e) in
        Ok {| type := u_type e; origin := u_origin e; timestamp := u_timestamp e;
              object := u_object e; signature := signMessageSync k message |}
    end.

Definition verifyEventSignature (e : FederationEvent) : option string :=
  let message := signingMessage (type e) (origin e) (timestamp e) (object e) in
  match verifyMessage message (signature e) with
  | Ok signer => Some signer
  | Throws _ => None
  end.

(** *** Outbox log *)

Definition publishEvent (m : FederationManager) (t : EventType)
    (object : ContentObject) (w : World) : Result string * FederationManager :=
  if negb (enabled (config m)) then (Throws "Federation is not enabled", m)
  else
    let m := with_outboxIdCounter m (outboxIdCounter m + 1) in
    let eventId := instanceUri (config m) +:+ "/outbox/" +:+ pretty (outboxIdCounter m) in
    let unsignedEvent :=
      {| u_type := t; u_origin := instanceUri (config m);
         u_timestamp := toISOString (clock w); u_object := object |} in
    match signEvent m unsignedEvent with
    | Throws msg => (Throws msg, m)
    | Ok event =>
        let outboxEvent :=
          {| id := eventId; event := event; created := clock w; delivered := [] |} in
        let m := with_outboxQueue m (JSMap.set eventId outboxEvent (outboxQueue m)) in
        let m := persistOutboxEvent m outboxEvent in
        let m :=
          if (1000 <? JSMap.size (outboxQueue m))%nat then
            let oldest :=
              take (JSMap.size (outboxQueue m) - 1000)%nat (JSMap.keys (outboxQueue m)) in
            fold_left
              (fun m id =>
                 with_storage
                   (with_outboxQueue m (JSMap.delete id (outboxQueue m)))
                   (option_map (fun s => MemoryFederationStorage.deleteOutboxEvent s id)
                               (storage m)))
              oldest m
          else m in
        (Ok eventId, m)
    end.

(** [Math.min(options.limit || 50, 200)] *)
Definition outboxLimit (limit : option Z) : Z :=
  Z.min (match limit with
         | Some n => if n =? 0 then 50 else n
         | None => 50
         end) 200.

(** The [for ... of this.outboxQueue] loop of [getOutboxEvents]. *)
Fixpoint outboxLoop (since : option string) (limit : Z)
    (entries : list (string * OutboxEvent))
    (foundSince : bool) (events : list FederationEvent) (cursor : option string)
  : list FederationEvent * option string :=
  match entries with
  | [] => (events, cursor)
  | (id, outboxEvent) :: entries' =>
      if negb foundSince then
        outboxLoop since limit entries'
          (if String.eqb id (default "" since) then true else foundSince)
          events cursor
      else
        let events := events ++ [event outboxEvent] in
        let cursor := Some id in
        if Z.of_nat (length events) >=? limit then (events, cursor)
        else outboxLoop since limit entries' foundSince events cursor
  end.

Definition getOutboxEvents (m : FederationManager) (since : option string)
    (limit : option Z) : list FederationEvent * option string :=
  outboxLoop since (outboxLimit limit) (outboxQueue m)
    (negb (truthy since)) [] None.

(** *** Inbox *)

Record Dispatch := {
  d_world : World;
  d_console : list string;
  d_invoked : list nat
}.

(** [indexOf] then [splice]: the first listener with that identity goes. *)
Fixpoint removeListener (r : nat) (listeners : list Listener) : list Listener :=
  match listeners with
  | [] => []
  | l :: listeners' =>
      if Nat.eqb (ref l) r then listeners' else l :: removeListener r listeners'
  end.

(** Returns the new manager and the unsubscribe function. *)
Definition onEvent (m : FederationManager) (listener : Listener)
  : FederationManager * (FederationManager -> FederationManager) :=
  (with_eventListeners m (eventListeners m ++ [listener]),
   fun m' => with_eventListeners m' (removeListener (ref listener) (eventListeners m'))).

Definition applyAction (listeners : list Listener) (a : RegistryAction Listener)
  : list Listener :=
  match a with
  | Unsubscribe r => removeListener r listeners
  | Subscribe l => listeners ++ [l]
  end.

(** [this.eventListeners.forEach(listener => { try { listener(event) }
    catch (e) { console.error(..., e) } })].  [forEach] visits the indices
    below the length the array had at the start and reads the array as it is
    when it gets to each index; [n] indices remain, [k] is the next one.
    [d_invoked] records the listeners called, in order. *)
Fixpoint forEachListener (n k : nat) (listeners : list Listener) (e : FederationEvent)
    (d : Dispatch) : list Listener * Dispatch :=
  match n with
  | O => (listeners, d)
  | S n' =>
      match nth_error listeners k with
      | None => forEachListener n' (S k) listeners e d
      | Some listener =>
          let '(w, thrown, actions) := call listener e (d_world d) in
          forEachListener n' (S k) (fold_left applyAction actions listeners) e
            {| d_world := w;
               d_console :=
                 match thrown with
                 | Some msg => d_console d ++ ["Event listener error: " +:+ msg]
                 | None => d_console d
                 end;
               d_invoked := d_invoked d ++ [ref listener] |}
      end
  end.

Definition notifyListeners (listeners : list Listener) (e : FederationEvent)
    (d : Dispatch) : list Listener * Dispatch :=
  forEachListener (length listeners) 0 listeners e d.

Definition processInboundEvent (m : FederationManager) (e : FederationEvent)
    (sourceInstance : string) (w : World)
  : InboundResult * FederationManager * Dispatch :=
  let quiet := {| d_world := w; d_console := []; d_invoked := [] |} in
  if negb (enabled (config m)) then
    ({| accepted := false; reason := Some "Federation disabled" |}, m, quiet)
  else if negb (trustsInstance m sourceInstance) then
    ({| accepted := false; reason := Some "Instance not trusted" |}, m, quiet)
  else if negb (String.eqb (origin e) sourceInstance) then
    ({| accepted := false; reason := Some "Origin mismatch" |}, m, quiet)
  else if negb (truthy (verifyEventSignature e)) then
    ({| accepted := false; reason := Some "Invalid signature" |}, m, quiet)
  else
    let '(listeners, d) := notifyListeners (eventListeners m) e quiet in
    ({| accepted := true; reason := None |}, with_eventListeners m listeners, d).

Definition getKnownInstances (m : FederationManager) : list RemoteInstance :=
  JSMap.values (knownInstances m).

(** *** Instance directory *)

Definition wellKnownUrl (instanceUri : string) : string :=
  if String.prefix "http" instanceUri
  then instanceUri +:+ "/.well-known/asp"
  else "https://" +:+ instanceUri +:+ "/.well-known/asp".

Definition set_lastError (i : RemoteInstance) (e : option string) : RemoteInstance :=
  {| uri := uri i; version := version i; inbox := inbox i; outbox := outbox i;
     trustMode := trustMode i; lastSeen := lastSeen i; lastError := e |}.

Definition set_lastSeen (i : RemoteInstance) (t : Z) : RemoteInstance :=
  {| uri := uri i; version := version i; inbox := inbox i; outbox := outbox i;
     trustMode := trustMode i; lastSeen := t; lastError := lastError i |}.

Definition discoverInstance (m : FederationManager) (instanceUri : string)
    (w : World) : option RemoteInstance * FederationManager * World :=
  let '(response, w) := fetch_wellknown (wellKnownUrl instanceUri) w in
  match response with
  | WKNotOk => (None, m, w)
  | WKMetadata metadata =>
      let instance :=
        {| uri := instanceUri;
           version := md_version metadata;
           inbox := md_inbox metadata;
           outbox := md_outbox metadata;
           trustMode := default closed (md_trustMode metadata);
           lastSeen := clock w;
           lastError := None |} in
      let m := with_knownInstances m (JSMap.set instanceUri instance (knownInstances m)) in
      (Some instance, persistInstance m instance, w)
  | WKThrows msg =>
      match JSMap.get instanceUri (knownInstances m) with
      | Some existing =>
          (None,
           with_knownInstances m
             (JSMap.set instanceUri (set_lastError existing (Some msg)) (knownInstances m)),
           w)
      | None => (None, m, w)
      end
  end.

(** *** Active push *)

Definition push_failure (msg : string) : PushResult :=
  {| success := false; error := Some msg |}.

Definition pushToInstance (m : FederationManager) (e : FederationEvent)
    (targetUri : string) (w : World) : PushResult * FederationManager * World :=
  if negb (trustsInstance m targetUri) then
    (push_failure "Instance not trusted", m, w)
  else
    let known := JSMap.get targetUri (knownInstances m) in
    let '(resolved, m, w) :=
      if match known with Some i => truthy (inbox i) | None => false end
      then (known, m, w)
      else discoverInstance m targetUri w in
    match resolved with
    | None => (push_failure "Could not discover instance", m, w)
    | Some instance =>
        if negb (truthy (inbox instance)) then
          (push_failure "Instance does not accept federation inbox", m, w)
        else
          let '(response, w) :=
            fetch_inbox (default "" (inbox instance)) (instanceUri (config m)) e w in
          match response with
          | IRStatus status text =>
              if negb (response_ok status) then
                (push_failure
                   ("HTTP " +:+ pretty status +:+ ": " +:+ String.substring 0 200 text),
                 m, w)
              else
                let instance := set_lastError (set_lastSeen instance (clock w)) None in
                let m :=
                  with_knownInstances m
                    (JSMap.set targetUri instance (knownInstances m)) in
                ({| success := true; error := None |}, persistInstance m instance, w)
          | IRThrows errorMsg =>
              let instance := set_lastError instance (Some errorMsg) in
              let m :=
                with_knownInstances m
                  (JSMap.set targetUri instance (knownInstances m)) in
              (push_failure errorMsg, persistInstance m instance, w)
          end
    end.

Definition deliveryKey (instanceUri eventId : string) : string :=
  instanceUri +:+ ":" +:+ eventId.

Definition newAttempt (instanceUri eventId : string) (now : Z) : DeliveryAttempt :=
  {| da_instanceUri := instanceUri;
     da_eventId := eventId;
     attemptCount := 0;
     lastAttempt := 0;
     nextAttempt := now;
     status := Status.pending;
     da_lastError := None |}.

Definition queueOne (now : Z) (eventId : string) (m : FederationManager)
    (instanceUri : string) : FederationManager :=
  let key := deliveryKey instanceUri eventId in
  if JSMap.has key (deliveryQueue m) then m
  else
    let attempt := newAttempt instanceUri eventId now in
    persistDeliveryAttempt
      (with_deliveryQueue m (JSMap.set key attempt (deliveryQueue m))) key attempt.

(** [now] is what [new Date()] returns during the call. *)
Definition queueForDelivery (m : FederationManager) (eventId : string)
    (e : FederationEvent) (targetInstances : option (list string)) (now : Z)
  : FederationManager :=
  let targets :=
    match targetInstances with
    | Some l => l
    | None => List.filter (trustsInstance m) (JSMap.keys (knownInstances m))
    end in
  fold_left (queueOne now eventId) targets m.

(** The object [find] returned is mutated in place: the first value that
    satisfies [p] is replaced. *)
Fixpoint mutate_first {V} (p : V -> bool) (f : V -> V) (m : JSMap.t V) : JSMap.t V :=
  match m with
  | [] => []
  | (k, v) :: m' => if p v then (k, f v) :: m' else (k, v) :: mutate_first p f m'
  end.

Definition backoffMs (attemptCount : nat) : Z :=
  default 0 (RETRY_BACKOFF_MS !! Nat.min (attemptCount - 1) (length RETRY_BACKOFF_MS - 1)).

(** What the loop body does to the attempt once the push has answered. *)
Definition recordPush (now : Z) (result : PushResult) (a : DeliveryAttempt)
  : DeliveryAttempt :=
  let count := S (attemptCount a) in
  if success result then
    {| da_instanceUri := da_instanceUri a; da_eventId := da_eventId a;
       attemptCount := count; lastAttempt := now; nextAttempt := nextAttempt a;
       status := Status.delivered; da_lastError := da_lastError a |}
  else if (MAX_RETRY_ATTEMPTS <=? count)%nat then
    {| da_instanceUri := da_instanceUri a; da_eventId := da_eventId a;
       attemptCount := count; lastAttempt := now; nextAttempt := nextAttempt a;
       status := Status.failed; da_lastError := error result |}
  else
    {| da_instanceUri := da_instanceUri a; da_eventId := da_eventId a;
       attemptCount := count; lastAttempt := now;
       nextAttempt := now + backoffMs count;
       status := status a; da_lastError := error result |}.

Definition add_delivered (instanceUri : string) (e : OutboxEvent) : OutboxEvent :=
  {| id := id e; event := event e; created := created e;
     delivered := Set_add (delivered e) instanceUri |}.

Definition count_push (r : DrainResult) (result : PushResult) (a : DeliveryAttempt)
  : DrainResult :=
  {| processed := S (processed r);
     succeeded := if success result then S (succeeded r) else succeeded r;
     failed :=
       if success result then failed r
       else if (MAX_RETRY_ATTEMPTS <=? S (attemptCount a))%nat then S (failed r)
       else failed r |}.

(** [Array.from(this.outboxQueue.values()).find(e => e.id === eventId)] *)
Definition findEvent (m : FederationManager) (eventId : string) : option OutboxEvent :=
  List.find (fun e => String.eqb (id e) eventId) (JSMap.values (outboxQueue m)).

(** Body of the first loop of [processDeliveryQueue]. *)
Definition drainOne (now : Z) (entry : string * DeliveryAttempt)
    (m : FederationManager) (w : World) (r : DrainResult)
  : DrainResult * FederationManager * World :=
  let '(key, attempt) := entry in
  if negb (Status.eqb (status attempt) Status.pending) || (now <? nextAttempt attempt)
  then (r, m, w)
  else
    match findEvent m (da_eventId attempt) with
    | None => (r, with_deliveryQueue m (JSMap.delete key (deliveryQueue m)), w)
    | Some outboxEvent =>
        let '(result, m, w) :=
          pushToInstance m (event outboxEvent) (da_instanceUri attempt) w in
        let attempt' := recordPush now result attempt in
        let m := with_deliveryQueue m (JSMap.set key attempt' (deliveryQueue m)) in
        let m :=
          if success result then
            let isIt := fun e => String.eqb (id e) (da_eventId attempt) in
            let m :=
              with_outboxQueue m
                (mutate_first isIt (add_delivered (da_instanceUri attempt))
                              (outboxQueue m)) in
            persistOutboxEvent m (add_delivered (da_instanceUri attempt) outboxEvent)
          else m in
        (count_push r result attempt, persistDeliveryAttempt m key attempt', w)
    end.

(** First loop of [processDeliveryQueue], over the entries of the queue. *)
Fixpoint drainLoop (now : Z) (entries : list (string * DeliveryAttempt))
    (m : FederationManager) (w : World) (r : DrainResult)
  : DrainResult * FederationManager * World :=
  match entries with
  | [] => (r, m, w)
  | entry :: entries' =>
      let '(r, m, w) := drainOne now entry m w r in
      drainLoop now entries' m w r
  end.

(** Second loop: terminal attempts older than one hour are dropped. *)
Definition pruneOne (now : Z) (m : FederationManager)
    (entry : string * DeliveryAttempt) : FederationManager :=
  let '(key, attempt) := entry in
  if negb (Status.eqb (status attempt) Status.pending)
     && (lastAttempt attempt <? now - 3600000)
  then
    with_storage
      (with_deliveryQueue m (JSMap.delete key (deliveryQueue m)))
      (option_map (fun s => MemoryFederationStorage.deleteDeliveryAttempt s key)
                  (storage m))
  else m.

(** [now] is the [new Date()] taken when the cycle starts. *)
Definition processDeliveryQueue (m : FederationManager) (now : Z) (w : World)
  : DrainResult * FederationManager * World :=
  let '(r, m, w) :=
    drainLoop now (deliveryQueue m) m w
      {| processed := 0; succeeded := 0; failed := 0 |} in
  (r, fold_left (pruneOne now) (deliveryQueue m) m, w).



Definition subscribeToInstance (m : FederationManager) (instanceUri : string)
    (w : World) : PushResult * option RemoteInstance * FederationManager * World :=
  let '(discovered, m, w) := discoverInstance m instanceUri w in
  match discovered with
  | None => (push_failure "Could not discover instance", None, m, w)
  | Some d =>
      match trustMode d with
      | closed => (push_failure "Instance federation is closed", Some d, m, w)
      | _ => ({| success := true; error := None |}, Some d,
              allowInstance m instanceUri, w)
      end
  end.

Definition publishAndPush (m : FederationManager) (t : EventType)
    (object : ContentObject) (w : World) : Result string * FederationManager :=
  match publishEvent m t object w with
  | (Throws msg, m) => (Throws msg, m)
  | (Ok eventId, m) =>
      match JSMap.get eventId (outboxQueue m) with
      | Some outboxEvent =>
          (Ok eventId, queueForDelivery m eventId (event outboxEvent) None (clock w))
      | None => (Ok eventId, m)
      end
  end.

(** *** Construction and restart *)

Definition restoreInstance (m : FederationManager) (inst : PersistedRemoteInstance)
  : FederationManager :=
  let m :=
    with_knownInstances m
      (JSMap.set (p_uri inst)
         {| uri := p_uri inst; version := p_version inst; inbox := p_inbox inst;
            outbox := p_outbox inst; trustMode := p_trustMode inst;
            lastSeen := p_lastSeen inst; lastError := p_lastError inst |}
         (knownInstances m)) in
  let t := trust (config m) in
  let allow :=
    if isAllowed inst then trust_allowlist t ∪ {[p_uri inst]} else trust_allowlist t in
  let block :=
    if isBlocked inst then trust_blocklist t ∪ {[p_uri inst]} else trust_blocklist t in
  with_config m
    (with_trust (config m)
       {| mode := mode t; trust_allowlist := allow; trust_blocklist := block |}).

Definition restoreOutboxEvent (m : FederationManager) (evt : PersistedOutboxEvent)
  : FederationManager :=
  let m :=
    with_outboxQueue m
      (JSMap.set (po_id evt)
         {| id := po_id evt; event := po_event evt; created := po_created evt;
            delivered := Set_of_array (deliveredTo evt) |}
         (outboxQueue m)) in
  match outboxIdNumber (po_id evt) with
  | Some num =>
      if outboxIdCounter m <? num then with_outboxIdCounter m num else m
  | None => m
  end.

Definition restoreDelivery (m : FederationManager) (del : PersistedDeliveryAttempt)
  : FederationManager :=
  with_deliveryQueue m
    (JSMap.set (key del)
       {| da_instanceUri := pd_instanceUri del; da_eventId := pd_eventId del;
          attemptCount := pd_attemptCount del; lastAttempt := pd_lastAttempt del;
          nextAttempt := pd_nextAttempt del; status := pd_status del;
          da_lastError := pd_lastError del |}
       (deliveryQueue m)).

Definition loadFromStorage (m : FederationManager) (now : Z) : FederationManager :=
  match storage m with
  | None => m
  | Some s =>
      let m := fold_left restoreInstance (MemoryFederationStorage.getInstances s) m in
      let m :=
        fold_left restoreOutboxEvent
          (MemoryFederationStorage.getOutboxEvents s (Some 1000%nat) None) m in
      fold_left restoreDelivery
        (MemoryFederationStorage.getPendingDeliveries s (now + 86400000)) m
  end.

(** [new FederationManager(config, storage)]; [now] is [Date.now()]. *)
Definition new_FederationManager (c : FederationConfig)
    (s : option MemoryFederationStorage.t) (now : Z) : FederationManager :=
  loadFromStorage
    {| config := c; knownInstances := JSMap.empty; outboxQueue := JSMap.empty;
       outboxIdCounter := 0; eventListeners := []; deliveryQueue := JSMap.empty;
       storage := s |}
    now.

End Manager.

Definition createFederationConfig (instanceUri : string) (enabled : bool)
    (mode : TrustMode) (signingKey : option string) : FederationConfig :=
  {| enabled := enabled; instanceUri := instanceUri;
     trust := {| mode := mode; trust_allowlist := ∅; trust_blocklist := ∅ |};
     signingKey := signingKey |}.

Arguments Listener : clear implicits.
Arguments FederationManager : clear implicits.
Arguments Dispatch : clear implicits.

(** ** Authentication utilities (auth.ts) *)

(** [String.prototype.toLowerCase]. *)
Class JSString := {
  toLowerCase : string -> string
}.

(** [s.slice(n)] for [n] within the string or at its end. *)
Fixpoint String_slice (n : nat) (s : string) : string :=
  match n, s with
  | O, _ => s
  | S n', String _ s' => String_slice n' s'
  | S _, EmptyString => EmptyString
  end.

Module Auth.

Definition TOKEN_EXPIRY_MS : Z := 24 * 60 * 60 * 1000.

Record TokenEntry := {
  te_directoryId : string;
  te_expiresAt : Z
}.

Record AuthToken := {
  token : string;
  expiresAt : Z;
  directoryId : string
}.

(** The module-level [activeTokens] map. *)
Definition Tokens : Type := JSMap.t TokenEntry.

Section WithEthers.
Context {E : Ethers} {L : JSString}.

Definition verifySignature (directoryId challenge signature : string) : bool :=
  match verifyMessage challenge signature with
  | Ok recoveredAddress =>
      String.eqb (toLowerCase recoveredAddress) (toLowerCase directoryId)
  | Throws _ => false
  end.

(** [`${author}|${content}|${published}|${inReplyTo || ''}`] *)
Definition contentMessage (author content published : string)
    (inReplyTo : option string) : string :=
  author +:+ "|" +:+ content +:+ "|" +:+ published +:+ "|" +:+ default "" inReplyTo.

Definition createContentSignature (privateKey author content published : string)
    (inReplyTo : option string) : Result string :=
  match Wallet_address privateKey with
  | Throws msg => Throws msg
  | Ok _ => Ok (signMessageSync privateKey (contentMessage author content published inReplyTo))
  end.

Definition verifyContentSignature (author content published : string)
    (inReplyTo : option string) (signature : string) : bool :=
  match verifyMessage (contentMessage author content published inReplyTo) signature with
  | Ok recoveredAddress => String.eqb (toLowerCase recoveredAddress) (toLowerCase author)
  | Throws _ => false
  end.

End WithEthers.

(** [uuid] is what [randomUUID()] returns, [now] is [Date.now()]. *)
Definition generateToken (activeTokens : Tokens) (directoryId uuid : string) (now : Z)
  : AuthToken * Tokens :=
  let expiresAt := now + TOKEN_EXPIRY_MS in
  ({| token := uuid; expiresAt := expiresAt; directoryId := directoryId |},
   JSMap.set uuid {| te_directoryId := directoryId; te_expiresAt := expiresAt |}
     activeTokens).

Definition validateToken (activeTokens : Tokens) (token : string) (now : Z)
  : option string * Tokens :=
  match JSMap.get token activeTokens with
  | None => (None, activeTokens)
  | Some stored =>
      if te_expiresAt stored <? now then (None, JSMap.delete token activeTokens)
      else (Some (te_directoryId stored), activeTokens)
  end.

Definition extractToken (authHeader : option string) : option string :=
  if negb (truthy authHeader) then None
  else
    let h := default "" authHeader in
    if String.prefix "Bearer " h then Some (String_slice 7 h) else None.

End Auth.

(** ** In-memory content store (storage/memory.ts) *)

Module MemoryStorage.

Record Challenge := {
  challenge : string;
  expiresAt : Z
}.

Record t := {
  instance : string;
  posts : JSMap.t Post;
  comments : JSMap.t Comment;
  challenges : JSMap.t Challenge
}.

Definition new (instance : string) : t :=
  {| instance := instance; posts := JSMap.empty; comments := JSMap.empty;
     challenges := JSMap.empty |}.

(** [uuid] is what [randomUUID()] returns. *)
Definition makePostId (s : t) (uuid : string) : string :=
  "asp:" +:+ instance s +:+ "/posts/" +:+ String.substring 0 8 uuid.

Definition makeCommentId (s : t) (uuid : string) : string :=
  "asp:" +:+ instance s +:+ "/comments/" +:+ String.substring 0 8 uuid.

Definition with_id (p : Post) (id : string) : Post :=
  {| post_id := id; post_author := post_author p; post_content := post_content p;
     post_contentType := post_contentType p; post_community := post_community p;
     post_published := post_published p; post_updated := post_updated p;
     post_inReplyTo := post_inReplyTo p; post_signature := post_signature p |}.

(** [post] stands for the [Omit<Post, 'id'>] argument: its [post_id] is not
    read. *)
Definition createPost (s : t) (post : Post) (uuid : string) : Post * t :=
  let id := makePostId s uuid in
  let fullPost := with_id post id in
  (fullPost,
   {| instance := instance s; posts := JSMap.set id fullPost (posts s);
      comments := comments s; challenges := challenges s |}).

Definition getPost (s : t) (id : string) : option Post := JSMap.get id (posts s).

(** [Map.prototype.delete] answers whether the key was there. *)
Definition deletePost (s : t) (id : string) : bool * t :=
  (JSMap.has id (posts s),
   {| instance := instance s; posts := JSMap.delete id (posts s);
      comments := comments s; challenges := challenges s |}).

Definition with_challenges (s : t) (c : JSMap.t Challenge) : t :=
  {| instance := instance s; posts := posts s; comments := comments s; challenges := c |}.

(** [uuid] is what [randomUUID()] returns, [now] is [Date.now()]. *)
Definition createChallenge (s : t) (directoryId uuid : string) (now : Z)
  : Challenge * t :=
  let c := {| challenge := uuid; expiresAt := now + 5 * 60 * 1000 |} in
  (c, with_challenges s (JSMap.set directoryId c (challenges s))).

Definition verifyChallenge (s : t) (directoryId challenge' : string) (now : Z)
  : bool * t :=
  match JSMap.get directoryId (challenges s) with
  | None => (false, s)
  | Some stored =>
      if expiresAt stored <? now then
        (false, with_challenges s (JSMap.delete directoryId (challenges s)))
      else if negb (String.eqb (challenge stored) challenge') then (false, s)
      else (true, with_challenges s (JSMap.delete directoryId (challenges s)))
  end.

End MemoryStorage.

(** ** Rate limiting (index.ts) *)

Module Server.

Definition RATE_LIMIT : nat := 60.
Definition RATE_WINDOW_MS : Z := 60 * 1000.

Record RateEntry := {
  count : nat;
  resetAt : Z
}.

Record RateResult := {
  allowed : bool;
  remaining : nat;
  rr_resetAt : Z
}.

(** [now] is the [new Date()] of the call; the entry is changed in place. *)
Definition rateLimit (rateLimits : JSMap.t RateEntry) (identifier : string) (now : Z)
  : RateResult * JSMap.t RateEntry :=
  let '(entry, rateLimits) :=
    match JSMap.get identifier rateLimits with
    | Some entry =>
        if resetAt entry <? now then
          let fresh := {| count := 0; resetAt := now + RATE_WINDOW_MS |} in
          (fresh, JSMap.set identifier fresh rateLimits)
        else (entry, rateLimits)
    | None =>
        let fresh := {| count := 0; resetAt := now + RATE_WINDOW_MS |} in
        (fresh, JSMap.set identifier fresh rateLimits)
    end in
  let entry := {| count := S (count entry); resetAt := resetAt entry |} in
  ({| allowed := (count entry <=? RATE_LIMIT)%nat;
      remaining := (RATE_LIMIT - count entry)%nat;
      rr_resetAt := resetAt entry |},
   JSMap.set identifier entry rateLimits).

(** What [requireAuth] answers: the caller's directory id, or the 401 it has
    sent. *)
Inductive AuthOutcome :=
| Authorized (directoryId : string)
| Unauthorized (message : string).

(** [authorization] is [req.headers.authorization]; [activeTokens] is the
    token table of auth.ts. *)
Definition requireAuth (activeTokens : Auth.Tokens) (authorization : option string)
    (now : Z) : AuthOutcome * Auth.Tokens :=
  let token := Auth.extractToken authorization in
  if negb (truthy token) then (Unauthorized "Missing authorization header", activeTokens)
  else
    let '(directoryId, activeTokens) :=
      Auth.validateToken activeTokens (default "" token) now in
    if negb (truthy directoryId) then (Unauthorized "Invalid or expired token", activeTokens)
    else (Authorized (default "" directoryId), activeTokens).

End Server.

(** ** Scenarios

    Concrete instances of the interfaces and concrete managers, on which the
    properties below are exercised.  The world of the scenarios is the list
    of listener identities that have run. *)

Definition ScenarioWorld : Type := list nat.

(** A recoverable-signature scheme small enough to compute with: a signature
    is the message followed by ["~"] and the key, the address of a key is
    ["addr:"] followed by the key.  Like ECDSA recovery it yields some
    address for every well-formed signature, the signer's only when the
    message is the signed one; the empty signature is malformed. *)
Definition scenarioEthers : Ethers := {|
  Wallet_address k :=
    if String.eqb k "" then Throws "invalid private key" else Ok ("addr:" +:+ k);
  signMessageSync k message := message +:+ "~" +:+ k;
  verifyMessage message sig :=
    if String.eqb sig "" then Throws "invalid signature"
    else
      match strip_prefix message sig with
      | Some (String "~"%char k) => Ok ("addr:" +:+ k)
      | _ => Ok ("addr:" +:+ sig)
      end
|}.

Definition scenarioJSON : JSON := {|
  JSON_stringify o :=
    match o with
    | ObjPost p => "{post:" +:+ post_id p +:+ "," +:+ post_content p +:+ "}"
    | ObjComment c => "{comment:" +:+ comment_id c +:+ "," +:+ comment_content c +:+ "}"
    end
|}.

(** A network in which every peer answers the discovery request, advertising
    an inbox, and every inbox answers with the given status and an empty
    body. *)
Definition scenarioHost (inboxStatus : Z) : Host ScenarioWorld := {|
  clock _ := 1700000000000;
  toISOString t := pretty t;
  fetch_wellknown url w :=
    (WKMetadata {| md_version := "0.1"; md_inbox := Some (url +:+ "/inbox");
                   md_outbox := None; md_trustMode := Some open |}, w);
  fetch_inbox url originHeader e w := (IRStatus inboxStatus "", w)
|}.

(** A network in which nothing answers. *)
Definition scenarioHostDown : Host ScenarioWorld := {|
  clock _ := 1700000000000;
  toISOString t := pretty t;
  fetch_wellknown url w := (WKThrows "fetch failed", w);
  fetch_inbox url originHeader e w := (IRThrows "fetch failed", w)
|}.

Definition scenarioPost : ContentObject :=
  ObjPost {| post_id := "asp:a.example/posts/1";
             post_author := "0x1234";
             post_content := "Test post";
             post_contentType := TextPlain;
             post_community := None;
             post_published := "2025-02-01T00:00:00.000Z";
             post_updated := None;
             post_inReplyTo := None;
             post_signature := "0xaa" |}.

Definition scenarioManager (enabled : bool) (mode : TrustMode)
    (s : option MemoryFederationStorage.t) : FederationManager ScenarioWorld :=
  new_FederationManager
    (createFederationConfig "https://a.example" enabled mode (Some "k1")) s 0.

(** A listener that records its identity in the world; it throws when
    [throws] is set, and calls its own unsubscribe function when [once] is
    set. *)
Definition scenarioListener (r : nat) (throws once : bool) : Listener ScenarioWorld :=
  {| ref := r;
     call e w := (w ++ [r],
                  if throws then Some "boom" else None,
                  if once then [Unsubscribe r] else []) |}.

(** A manager with the listeners registered in order. *)
Definition scenarioListening (listeners : list (Listener ScenarioWorld))
  : FederationManager ScenarioWorld :=
  fold_left (fun m l => fst (onEvent m l)) listeners (scenarioManager true open None).

(** An event that claims origin [https://x.example] and is signed with a key
    that is not that instance's. *)
Definition forgedEvent : FederationEvent :=
  {| type := PostCreated;
     origin := "https://x.example";
     timestamp := "2025-02-01T00:00:00.000Z";
     object := scenarioPost;
     signature :=
       signMessageSync (Ethers := scenarioEthers) "mallory"
         (signingMessage (J := scenarioJSON) PostCreated "https://x.example"
            "2025-02-01T00:00:00.000Z" scenarioPost) |}.



(** The manager after two posts have been published, with a store. *)
Definition scenarioLog : FederationManager ScenarioWorld :=
  let m0 := scenarioManager true open (Some MemoryFederationStorage.new) in
  let m1 := snd (publishEvent (H := scenarioHost 202) (E := scenarioEthers)
                   (J := scenarioJSON) m0 PostCreated scenarioPost []) in
  snd (publishEvent (H := scenarioHost 202) (E := scenarioEthers)
         (J := scenarioJSON) m1 PostDeleted scenarioPost []).

(** The first event of [scenarioLog], queued for [https://c.example]
    ([queueForDelivery] does not read its event argument). *)
Definition scenarioQueued : FederationManager ScenarioWorld :=
  queueForDelivery scenarioLog "https://a.example/outbox/1" forgedEvent
    (Some ["https://c.example"]) 0.

(** [scenarioQueued] after one drain cycle in which the inbox of
    [https://c.example] accepted the push. *)
Definition scenarioDelivered : FederationManager ScenarioWorld :=
  (processDeliveryQueue (H := scenarioHost 202) scenarioQueued 0 []).1.2.


(** [scenarioDelivered] after a discovery of [https://c.example] that
    failed. *)
Definition scenarioUnreachable : FederationManager ScenarioWorld :=
  (discoverInstance (H := scenarioHostDown) scenarioDelivered "https://c.example" []).1.2.

(** An attempt queued for an event that is not in the outbox, and the
    manager after the drain cycle that drops it. *)
Definition scenarioOrphan : FederationManager ScenarioWorld :=
  queueForDelivery scenarioLog "https://a.example/outbox/0" forgedEvent
    (Some ["https://c.example"]) 0.

Definition scenarioOrphanDropped : FederationManager ScenarioWorld :=
  (processDeliveryQueue (H := scenarioHost 202) scenarioOrphan 0 []).1.2.


(** ** Properties *)

(** *** The embedding on small inputs *)

Example outboxIdNumber_of_event_id :
  outboxIdNumber "https://a.example/outbox/12" = Some 12
  /\ outboxIdNumber "https://a.example/outbox/12x" = None
  /\ outboxIdNumber "https://a.example/outbox/" = None.
Proof. repeat split. Qed.

Example backoffMs_ladder :
  map backoffMs [1; 2; 3; 4; 5; 6; 7]%nat
  = [1000; 5000; 30000; 120000; 600000; 600000; 600000].
Proof. reflexivity. Qed.

Example sort_by_is_stable :
  sort_by fst [(2, "a"); (1, "b"); (2, "c"); (1, "d")]
  = [(1, "b"); (1, "d"); (2, "a"); (2, "c")].
Proof. reflexivity. Qed.

Example Set_of_array_keeps_first_occurrences :
  Set_of_array ["b"; "a"; "b"; "c"; "a"] = ["b"; "a"; "c"].
Proof. reflexivity. Qed.

Example JSMap_set_keeps_position :
  JSMap.set "a" 3%nat (JSMap.set "b" 2%nat (JSMap.set "a" 1%nat JSMap.empty))
  = [("a", 3%nat); ("b", 2%nat)].
Proof. reflexivity. Qed.

Example outboxLimit_values :
  map outboxLimit [None; Some 0; Some 10; Some 500; Some (-3)] = [50; 50; 10; 200; -3].
Proof. reflexivity. Qed.

(** *** Maps *)

Module JSMapFacts.
Import JSMap.

Section Facts.
Context {V : Type}.
Implicit Types (m : t V) (k : string) (v : V).

Lemma eqb_true a b : String.eqb a b = true <-> a = b.
Proof. apply String.eqb_eq. Qed.

Lemma eqb_false a b : String.eqb a b = false <-> a <> b.
Proof. apply String.eqb_neq. Qed.

Lemma get_None k m : get k m = None <-> ~ In k (keys m).
Proof.
  induction m as [|[k' v'] m IH]; simpl; [tauto|].
  destruct (String.eqb k' k) eqn:Hk.
  - apply eqb_true in Hk. split; [discriminate | intros Hn; exfalso; auto].
  - apply eqb_false in Hk. rewrite IH. tauto.
Qed.

Lemma get_Some_In k v m : get k m = Some v -> In (k, v) m.
Proof.
  induction m as [|[k' v'] m IH]; simpl; [discriminate|].
  destruct (String.eqb k' k) eqn:Hk.
  - apply eqb_true in Hk. intros [= ->]. subst. auto.
  - auto.
Qed.

Lemma In_get k v m : wf m -> In (k, v) m -> get k m = Some v.
Proof.
  unfold wf. induction m as [|[k' v'] m IH]; simpl; [tauto|].
  intros Hnd [Heq | Hin].
  - injection Heq as -> ->. now rewrite String.eqb_refl.
  - apply List.NoDup_cons_iff in Hnd as [Hk' Hnd].
    destruct (String.eqb k' k) eqn:Hk.
    + apply eqb_true in Hk. subst k'. exfalso. apply Hk'.
      change k with (fst (k, v)). now apply in_map.
    + auto.
Qed.

Lemma has_true k m : has k m = true <-> In k (keys m).
Proof.
  unfold has. destruct (get k m) eqn:Hg.
  - split; [intros _ | reflexivity].
    apply get_Some_In in Hg. change k with (fst (k, v)). now apply in_map.
  - apply get_None in Hg. split; [discriminate | tauto].
Qed.

Lemma get_set_eq k v m : get k (set k v m) = Some v.
Proof.
  induction m as [|[k' v'] m IH]; simpl.
  - now rewrite String.eqb_refl.
  - destruct (String.eqb k' k) eqn:Hk; simpl; now rewrite Hk.
Qed.

Lemma get_set_ne k k' v m : k <> k' -> get k' (set k v m) = get k' m.
Proof.
  intros Hne. induction m as [|[k0 v0] m IH]; simpl.
  - apply eqb_false in Hne. now rewrite Hne.
  - destruct (String.eqb k0 k) eqn:Hk; simpl.
    + apply eqb_true in Hk. subst k0. apply eqb_false in Hne. now rewrite Hne.
    + now rewrite IH.
Qed.

Lemma get_delete_eq k m : get k (delete k m) = None.
Proof.
  induction m as [|[k' v'] m IH]; simpl; [reflexivity|].
  destruct (String.eqb k' k) eqn:Hk; simpl; [assumption | now rewrite Hk].
Qed.

Lemma get_delete_ne k k' m : k <> k' -> get k' (delete k m) = get k' m.
Proof.
  intros Hne. induction m as [|[k0 v0] m IH]; simpl; [reflexivity|].
  destruct (String.eqb k0 k) eqn:Hk; simpl.
  - apply eqb_true in Hk. subst k0. apply eqb_false in Hne. now rewrite Hne.
  - now rewrite IH.
Qed.


Lemma set_same k v m : get k m = Some v -> set k v m = m.
Proof.
  induction m as [|[k' v'] m IH]; simpl; [discriminate|].
  destruct (String.eqb k' k) eqn:Hk.
  - now intros [= ->].
  - intros Hg. f_equal. auto.
Qed.

Lemma set_set k v v' m : set k v (set k v' m) = set k v m.
Proof.
  induction m as [|[k0 v0] m IH]; simpl.
  - now rewrite String.eqb_refl.
  - destruct (String.eqb k0 k) eqn:Hk; simpl; rewrite Hk; [reflexivity | now f_equal].
Qed.

Lemma keys_set k v m :
  keys (set k v m) = if has k m then keys m else keys m ++ [k].
Proof.
  unfold has. induction m as [|[k0 v0] m IH]; simpl; [reflexivity|].
  destruct (String.eqb k0 k) eqn:Hk; simpl; [reflexivity|].
  rewrite IH. now destruct (get k m).
Qed.

Lemma wf_set k v m : wf m -> wf (set k v m).
Proof.
  unfold wf. intros Hnd. rewrite keys_set.
  destruct (has k m) eqn:Hh; [assumption|].
  apply List.NoDup_app; [assumption | repeat constructor; simpl; tauto |].
  intros x Hx [<-|[]]. apply has_true in Hx. congruence.
Qed.

Lemma keys_delete_incl k k' m : In k' (keys (delete k m)) -> In k' (keys m).
Proof.
  induction m as [|[k0 v0] m IH]; simpl; [tauto|].
  destruct (String.eqb k0 k); simpl; tauto.
Qed.

Lemma wf_delete k m : wf m -> wf (delete k m).
Proof.
  unfold wf. induction m as [|[k0 v0] m IH]; simpl; [auto|].
  intros Hnd. apply List.NoDup_cons_iff in Hnd as [Hk0 Hnd].
  destruct (String.eqb k0 k); simpl; [auto|].
  apply List.NoDup_cons_iff. split; [|auto].
  intros Hin. apply Hk0. eapply keys_delete_incl; eassumption.
Qed.



End Facts.
End JSMapFacts.

(** *** Trust policy *)

Section TrustPolicy.
Context {World : Type}.
Implicit Types (m : FederationManager World) (instanceUri : string).

(** C2.  With federation enabled, [trustsInstance] follows the table: never in
  mode [closed]; exactly the members of the allow set in mode [allowlist];
  exactly the non-members of the block set in modes [open] and
  [blocklist]. *)
Theorem trustsInstance_table m instanceUri :
  enabled (config m) = true ->
  let t := trust (config m) in
  (mode t = closed -> trustsInstance m instanceUri = false)
  /\ (mode t = allowlist ->
      (trustsInstance m instanceUri = true <-> instanceUri ∈ trust_allowlist t))
  /\ (mode t = open \/ mode t = blocklist ->
      (trustsInstance m instanceUri = true <-> instanceUri ∉ trust_blocklist t)).
Proof.
  intros Hen. cbv zeta. unfold trustsInstance. rewrite Hen. simpl.
  pose proof (bool_decide_spec (instanceUri ∈ trust_allowlist (trust (config m)))) as Ha.
  pose proof (bool_decide_spec (instanceUri ∈ trust_blocklist (trust (config m)))) as Hb.
  destruct (bool_decide (instanceUri ∈ trust_allowlist (trust (config m))));
    destruct (bool_decide (instanceUri ∈ trust_blocklist (trust (config m))));
    destruct (mode (trust (config m))); simpl in *;
    (split; [|split]); try discriminate; try reflexivity;
    try (intros [Hm | Hm]; try discriminate Hm); try intros _;
    split; intros; try discriminate; tauto.
Qed.

(** C10.  With federation disabled, no instance is trusted and the
  discovery metadata is [{ enabled: false, trustMode: 'closed' }] with
  neither inbox nor outbox, whatever the configured mode and sets. *)
Theorem disabled_trusts_nobody_and_advertises_closed m instanceUri :
  enabled (config m) = false ->
  trustsInstance m instanceUri = false
  /\ getMetadata m =
       {| meta_enabled := false; meta_inbox := None; meta_outbox := None;
          meta_trustMode := closed |}.
Proof.
  intros Hen. unfold trustsInstance, getMetadata. now rewrite Hen.
Qed.

Definition allowlistOf m : gset string := trust_allowlist (trust (config m)).
Definition blocklistOf m : gset string := trust_blocklist (trust (config m)).

Lemma allowInstance_config m instanceUri :
  config (allowInstance m instanceUri) =
    with_trust (config m)
      {| mode := mode (trust (config m));
         trust_allowlist := allowlistOf m ∪ {[instanceUri]};
         trust_blocklist := blocklistOf m ∖ {[instanceUri]} |}.
Proof.
  unfold allowInstance, persistInstance. simpl.
  destruct (JSMap.get instanceUri (knownInstances m)); [|reflexivity].
  now destruct (storage m).
Qed.

Lemma blockInstance_config m instanceUri :
  config (blockInstance m instanceUri) =
    with_trust (config m)
      {| mode := mode (trust (config m));
         trust_allowlist := allowlistOf m ∖ {[instanceUri]};
         trust_blocklist := blocklistOf m ∪ {[instanceUri]} |}.
Proof.
  unfold blockInstance, persistInstance. simpl.
  destruct (JSMap.get instanceUri (knownInstances m)); [|reflexivity].
  now destruct (storage m).
Qed.

Lemma union_singleton_twice (A : gset string) (u : string) :
  (A ∪ {[u]}) ∪ {[u]} = A ∪ {[u]}.
Proof. set_solver. Qed.

Lemma difference_singleton_twice (A : gset string) (u : string) :
  (A ∖ {[u]}) ∖ {[u]} = A ∖ {[u]}.
Proof. set_solver. Qed.

Lemma allowInstance_twice m instanceUri :
  allowInstance (allowInstance m instanceUri) instanceUri = allowInstance m instanceUri.
Proof.
  destruct m as [c k o n l d s]. unfold allowInstance, persistInstance. simpl.
  destruct (JSMap.get instanceUri k) as [i|] eqn:Hg; simpl.
  - destruct s as [s|]; simpl; rewrite Hg; simpl;
      rewrite union_singleton_twice, difference_singleton_twice; [|reflexivity].
    unfold with_storage, MemoryFederationStorage.saveInstance. simpl.
    now rewrite JSMapFacts.set_set.
  - rewrite Hg. unfold with_config, with_trust. simpl.
    now rewrite union_singleton_twice, difference_singleton_twice.
Qed.

Lemma blockInstance_twice m instanceUri :
  blockInstance (blockInstance m instanceUri) instanceUri = blockInstance m instanceUri.
Proof.
  destruct m as [c k o n l d s]. unfold blockInstance, persistInstance. simpl.
  destruct (JSMap.get instanceUri k) as [i|] eqn:Hg; simpl.
  - destruct s as [s|]; simpl; rewrite Hg; simpl;
      rewrite union_singleton_twice, difference_singleton_twice; [|reflexivity].
    unfold with_storage, MemoryFederationStorage.saveInstance. simpl.
    now rewrite JSMapFacts.set_set.
  - rewrite Hg. unfold with_config, with_trust. simpl.
    now rewrite union_singleton_twice, difference_singleton_twice.
Qed.

(** A sequence of operator actions on the trust sets. *)
Inductive TrustOp := Allow (instanceUri : string) | Block (instanceUri : string).

Definition applyTrustOp m (op : TrustOp) : FederationManager World :=
  match op with
  | Allow u => allowInstance m u
  | Block u => blockInstance m u
  end.

Lemma applyTrustOp_disjoint m op :
  allowlistOf m ## blocklistOf m ->
  allowlistOf (applyTrustOp m op) ## blocklistOf (applyTrustOp m op).
Proof.
  intros Hd. unfold allowlistOf, blocklistOf in *.
  destruct op; simpl;
    [rewrite allowInstance_config | rewrite blockInstance_config]; simpl;
    unfold allowlistOf, blocklistOf; set_solver.
Qed.

(** C8.  [allowInstance] puts the URI in the allowlist and takes it out of
  the blocklist, [blockInstance] does the opposite, repeating either call
  changes nothing, and sets that are disjoint stay disjoint under any
  sequence of the two operations. *)
Theorem allow_block_exclusive_idempotent m instanceUri :
  (instanceUri ∈ allowlistOf (allowInstance m instanceUri)
   /\ instanceUri ∉ blocklistOf (allowInstance m instanceUri))
  /\ (instanceUri ∈ blocklistOf (blockInstance m instanceUri)
      /\ instanceUri ∉ allowlistOf (blockInstance m instanceUri))
  /\ allowInstance (allowInstance m instanceUri) instanceUri = allowInstance m instanceUri
  /\ blockInstance (blockInstance m instanceUri) instanceUri = blockInstance m instanceUri
  /\ (forall ops : list TrustOp,
        allowlistOf m ## blocklistOf m ->
        allowlistOf (fold_left applyTrustOp ops m)
          ## blocklistOf (fold_left applyTrustOp ops m)).
Proof.
  unfold allowlistOf, blocklistOf.
  rewrite allowInstance_config, blockInstance_config. simpl.
  repeat split; try set_solver.
  - apply allowInstance_twice.
  - apply blockInstance_twice.
  - intros ops. revert m. induction ops as [|op ops IH]; intros m Hd; simpl; [exact Hd|].
    apply IH. now apply applyTrustOp_disjoint.
Qed.

End TrustPolicy.

Lemma trustsInstance_table_witness :
  let m := allowInstance (scenarioManager true allowlist None) "https://b.example" in
  enabled (config m) = true
  /\ (mode (trust (config m)) = allowlist ->
      (trustsInstance m "https://b.example" = true
       <-> "https://b.example" ∈ trust_allowlist (trust (config m)))).
Proof.
  split; [reflexivity|].
  apply (trustsInstance_table
           (allowInstance (scenarioManager true allowlist None) "https://b.example")
           "https://b.example" eq_refl).
Defined.

Lemma disabled_trusts_nobody_and_advertises_closed_witness :
  let m := scenarioManager false open None in
  enabled (config m) = false
  /\ trustsInstance m "https://b.example" = false
  /\ getMetadata m =
       {| meta_enabled := false; meta_inbox := None; meta_outbox := None;
          meta_trustMode := closed |}.
Proof.
  split; [reflexivity|].
  apply (disabled_trusts_nobody_and_advertises_closed
           (scenarioManager false open None) "https://b.example" eq_refl).
Defined.

Lemma allow_block_exclusive_idempotent_witness :
  let m := scenarioManager true open None in
  let ops := [Allow "https://b.example"; Block "https://b.example";
              Block "https://c.example"; Allow "https://b.example"] in
  allowlistOf m ## blocklistOf m
  /\ allowlistOf (fold_left applyTrustOp ops m) ## blocklistOf (fold_left applyTrustOp ops m).
Proof.
  assert (allowlistOf (scenarioManager true open None)
            ## blocklistOf (scenarioManager true open None)) as Hd
    by (vm_compute; set_solver).
  split; [exact Hd|].
  apply (allow_block_exclusive_idempotent
           (scenarioManager true open None) "https://b.example"). exact Hd.
Defined.

(** *** Signature codec *)

Lemma strip_prefix_app p s : strip_prefix p (p +:+ s) = Some s.
Proof.
  induction p as [|a p IH]; simpl; [now destruct s|].
  now rewrite Ascii.eqb_refl.
Qed.

Lemma scenarioEthers_recovers : EthersRecovers scenarioEthers.
Proof.
  intros k addr message.
  unfold Wallet_address, verifyMessage, signMessageSync, scenarioEthers.
  destruct (String.eqb k "") eqn:Hk; [discriminate|]. intros [= <-].
  rewrite strip_prefix_app.
  assert (String.eqb (message +:+ "~" +:+ k) "" = false) as ->; [|reflexivity].
  apply String.eqb_neq. destruct message; discriminate.
Qed.

Section SignatureCodec.
Context {World : Type} {E : Ethers} {J : JSON}.
Implicit Types (m : FederationManager World).




End SignatureCodec.



(** *** Inbox *)

Section Inbox.
Context {World : Type} {E : Ethers} {J : JSON}.
Implicit Types (m : FederationManager World) (e : FederationEvent) (w : World).
Implicit Types (listeners : list (Listener World)) (d : Dispatch World).

Definition quietDispatch w : Dispatch World :=
  {| d_world := w; d_console := []; d_invoked := [] |}.

(** A listener that leaves the registry of listeners alone when it handles
    [e]. *)
Definition keepsRegistry e (l : Listener World) : Prop :=
  forall w, (call l e w).2 = [].

(** The listeners called one after the other, each on the world its
    predecessors left. *)
Fixpoint runListeners listeners e d : Dispatch World :=
  match listeners with
  | [] => d
  | l :: listeners' =>
      runListeners listeners' e
        {| d_world := (call l e (d_world d)).1.1;
           d_console :=
             match (call l e (d_world d)).1.2 with
             | Some msg => d_console d ++ ["Event listener error: " +:+ msg]
             | None => d_console d
             end;
           d_invoked := d_invoked d ++ [ref l] |}
  end.

(** What each listener answers in such a run. *)
Fixpoint listenerOutcomes listeners e w : list (option string) :=
  match listeners with
  | [] => []
  | l :: listeners' =>
      (call l e w).1.2 :: listenerOutcomes listeners' e (call l e w).1.1
  end.

Definition loggedErrors (outcomes : list (option string)) : list string :=
  flat_map (fun o => match o with
                     | Some msg => ["Event listener error: " +:+ msg]
                     | None => []
                     end) outcomes.

Lemma nth_error_drop {A} (l : list A) k x :
  nth_error l k = Some x -> drop k l = x :: drop (S k) l.
Proof.
  revert k. induction l as [|y l IH]; intros [|k]; simpl; try discriminate.
  - now intros [= ->].
  - apply IH.
Qed.

Lemma nth_error_drop_None {A} (l : list A) k : nth_error l k = None -> drop k l = [].
Proof.
  revert k. induction l as [|y l IH]; intros [|k]; simpl; try discriminate; auto.
Qed.

Lemma forEachListener_keepsRegistry n k listeners e d :
  Forall (keepsRegistry e) listeners ->
  forEachListener n k listeners e d
  = (listeners, runListeners (take n (drop k listeners)) e d).
Proof.
  intros Hkeep. revert k d. induction n as [|n IH]; intros k d; [reflexivity|].
  cbn [forEachListener]. destruct (nth_error listeners k) as [l|] eqn:Hk.
  - rewrite (nth_error_drop _ _ _ Hk). cbn [take firstn runListeners].
    assert (keepsRegistry e l) as Hl
      by (eapply List.Forall_forall; [exact Hkeep | eapply nth_error_In; exact Hk]).
    specialize (Hl (d_world d)).
    destruct (call l e (d_world d)) as [[w' thrown] actions]. simpl in Hl. subst actions.
    cbn [fold_left fst snd]. apply IH.
  - rewrite IH, (nth_error_drop_None _ _ Hk).
    rewrite (nth_error_drop_None listeners (S k)).
    + now rewrite !take_nil.
    + apply nth_error_None. apply nth_error_None in Hk. lia.
Qed.

Lemma notifyListeners_keepsRegistry listeners e d :
  Forall (keepsRegistry e) listeners ->
  notifyListeners listeners e d = (listeners, runListeners listeners e d).
Proof.
  intros Hkeep. unfold notifyListeners.
  rewrite forEachListener_keepsRegistry by exact Hkeep.
  now rewrite drop_0, firstn_all.
Qed.

Lemma runListeners_invoked listeners e d :
  d_invoked (runListeners listeners e d) = d_invoked d ++ map ref listeners.
Proof.
  revert d. induction listeners as [|l ls IH]; intros d; simpl.
  - now rewrite app_nil_r.
  - rewrite IH. simpl. now rewrite <- app_assoc.
Qed.

Lemma runListeners_console listeners e d :
  d_console (runListeners listeners e d)
  = d_console d ++ loggedErrors (listenerOutcomes listeners e (d_world d)).
Proof.
  revert d. induction listeners as [|l ls IH]; intros d; simpl.
  - now rewrite app_nil_r.
  - rewrite IH. simpl.
    destruct (call l e (d_world d)).1.2; simpl; [now rewrite <- app_assoc | reflexivity].
Qed.



Lemma processInboundEvent_accepted m e sourceInstance w :
  accepted (processInboundEvent m e sourceInstance w).1.1 = true ->
  processInboundEvent m e sourceInstance w
  = ({| accepted := true; reason := None |},
     with_eventListeners m (notifyListeners (eventListeners m) e (quietDispatch w)).1,
     (notifyListeners (eventListeners m) e (quietDispatch w)).2).
Proof.
  unfold processInboundEvent.
  destruct (negb (enabled (config m))); [discriminate|].
  destruct (negb (trustsInstance m sourceInstance)); [discriminate|].
  destruct (negb (String.eqb (origin e) sourceInstance)); [discriminate|].
  destruct (negb (truthy (verifyEventSignature e))); [discriminate|].
  fold (quietDispatch w).
  now destruct (notifyListeners (eventListeners m) e (quietDispatch w)).
Qed.


(** When no registered listener touches the registry while it handles the
    event, an accepted event reaches every listener exactly once, in
    registration order; a listener that throws is logged and the others
    still run; the result is [{ accepted: true }]. *)
Lemma accepted_event_notifies_every_listener m e sourceInstance w :
  accepted (processInboundEvent m e sourceInstance w).1.1 = true ->
  Forall (keepsRegistry e) (eventListeners m) ->
  (processInboundEvent m e sourceInstance w).1.1 = {| accepted := true; reason := None |}
  /\ d_invoked (processInboundEvent m e sourceInstance w).2 = map ref (eventListeners m)
  /\ d_console (processInboundEvent m e sourceInstance w).2
     = loggedErrors (listenerOutcomes (eventListeners m) e w)
  /\ (processInboundEvent m e sourceInstance w).1.2 = m.
Proof.
  intros Hacc Hkeep. rewrite (processInboundEvent_accepted _ _ _ _ Hacc).
  rewrite (notifyListeners_keepsRegistry _ _ _ Hkeep). cbn [fst snd].
  rewrite runListeners_invoked, runListeners_console. simpl.
  repeat split. now destruct m.
Qed.

End Inbox.



(** Listeners 1, 2 and 3, of which 2 throws: all three are called, the error
    of 2 is logged, the event is accepted. *)
Example throwing_listener_does_not_stop_the_others :
  let m := scenarioListening [scenarioListener 1 false false;
                              scenarioListener 2 true false;
                              scenarioListener 3 false false] in
  processInboundEvent (E := scenarioEthers) (J := scenarioJSON) m forgedEvent
    "https://x.example" []
  = ({| accepted := true; reason := None |}, m,
     {| d_world := [1%nat; 2%nat; 3%nat];
        d_console := ["Event listener error: boom"];
        d_invoked := [1%nat; 2%nat; 3%nat] |}).
Proof. reflexivity. Qed.

(** C9, at the failing input.  Listeners 1 and 2 are registered; listener 1
    calls its own unsubscribe function when it handles an event.  The event
    is accepted, listener 1 is called, and listener 2, which is registered
    before, during and after the dispatch, is not called: [forEach] reads
    index 1 of an array that [splice] has shortened to one element. *)
Theorem unsubscribing_listener_hides_the_next :
  let m := scenarioListening [scenarioListener 1 false true;
                              scenarioListener 2 false false] in
  let out := processInboundEvent (E := scenarioEthers) (J := scenarioJSON) m forgedEvent
               "https://x.example" [] in
  map ref (eventListeners m) = [1%nat; 2%nat]
  /\ out.1.1 = {| accepted := true; reason := None |}
  /\ d_invoked out.2 = [1%nat]
  /\ map ref (eventListeners out.1.2) = [2%nat].
Proof. cbv zeta. repeat split; reflexivity. Qed.

(** *** Outbox log *)

Section OutboxLog.
Context {World : Type}.
Implicit Types (m : FederationManager World) (entries : list (string * OutboxEvent)).

(** The page the loop collects once the cursor is behind it. *)
Definition pageOf (limit : Z) (acc : list FederationEvent) entries
  : list (string * OutboxEvent) :=
  take (Z.to_nat (Z.max 1 (limit - Z.of_nat (length acc)))) entries.

Lemma last_cons {A} (l : list A) (a d : A) : List.last (a :: l) d = List.last l a.
Proof.
  revert a d. induction l as [|b l IH]; intros a d; [reflexivity|].
  change (List.last (a :: b :: l) d) with (List.last (b :: l) d).
  now rewrite !IH.
Qed.

Lemma outboxLoop_collect since limit entries acc cursor :
  outboxLoop since limit entries true acc cursor
  = (acc ++ map (fun kv => event (snd kv)) (pageOf limit acc entries),
     match pageOf limit acc entries with
     | [] => cursor
     | kv :: rest => Some (fst (List.last rest kv))
     end).
Proof.
  unfold pageOf. revert acc cursor.
  induction entries as [|[k oe] entries IH]; intros acc cursor.
  - simpl. rewrite take_nil. simpl. now rewrite app_nil_r.
  - cbn [outboxLoop negb].
    rewrite Z.geb_leb, length_app. cbn [length].
    destruct (limit <=? Z.of_nat (length acc + 1)) eqn:Hl.
    + apply Z.leb_le in Hl.
      assert (Z.to_nat (Z.max 1 (limit - Z.of_nat (length acc))) = 1%nat) as -> by lia.
      reflexivity.
    + apply Z.leb_gt in Hl. rewrite IH. rewrite length_app. cbn [length].
      assert (Z.to_nat (Z.max 1 (limit - Z.of_nat (length acc)))
              = S (Z.to_nat (Z.max 1 (limit - Z.of_nat (length acc + 1))))) as -> by lia.
      simpl. rewrite <- app_assoc. simpl. f_equal.
      destruct (take _ entries) as [|kv rest]; [reflexivity|].
      now rewrite last_cons.
Qed.

Lemma outboxLoop_unknown since limit entries acc cursor :
  ~ In (default "" since) (JSMap.keys entries) ->
  outboxLoop since limit entries false acc cursor = (acc, cursor).
Proof.
  induction entries as [|[k oe] entries IH]; simpl; [reflexivity|].
  intros Hn. destruct (String.eqb k (default "" since)) eqn:Hk.
  - apply String.eqb_eq in Hk. tauto.
  - apply IH. tauto.
Qed.

Lemma outboxLoop_known since limit before oe after acc cursor :
  ~ In (default "" since) (JSMap.keys before) ->
  outboxLoop since limit (before ++ (default "" since, oe) :: after) false acc cursor
  = outboxLoop since limit after true acc cursor.
Proof.
  induction before as [|[k oe'] before IH]; simpl.
  - now rewrite String.eqb_refl.
  - intros Hn. destruct (String.eqb k (default "" since)) eqn:Hk.
    + apply String.eqb_eq in Hk. tauto.
    + apply IH. tauto.
Qed.

(** A cursor that is in the log: the page is what follows it, in order, cut
    at the limit. *)
Lemma getOutboxEvents_known_cursor m since limit before oe after :
  since <> "" ->
  outboxQueue m = before ++ (since, oe) :: after ->
  ~ In since (JSMap.keys before) ->
  fst (getOutboxEvents m (Some since) limit)
  = map (fun kv => event (snd kv))
        (take (Z.to_nat (Z.max 1 (outboxLimit limit))) after).
Proof.
  intros Hne Hq Hn. unfold getOutboxEvents. rewrite Hq. simpl.
  apply String.eqb_neq in Hne. rewrite Hne. simpl.
  rewrite (outboxLoop_known (Some since)); [|exact Hn].
  rewrite outboxLoop_collect. unfold pageOf. simpl.
  now rewrite Z.sub_0_r.
Qed.

(** A cursor that is not in the log: nothing is returned. *)
Lemma getOutboxEvents_unknown_cursor m since limit :
  since <> "" ->
  ~ In since (JSMap.keys (outboxQueue m)) ->
  getOutboxEvents m (Some since) limit = ([], None).
Proof.
  intros Hne Hn. unfold getOutboxEvents. simpl.
  apply String.eqb_neq in Hne. rewrite Hne. simpl.
  now apply (outboxLoop_unknown (Some since)).
Qed.

End OutboxLog.

(** C4, at the failing input.  The log holds the events [.../outbox/1] and
    [.../outbox/2]; polled with the cursor [.../outbox/7], which is not in the
    log, [getOutboxEvents] returns no event and no cursor, whereas the page
    from the beginning has both events, and the store's [getOutboxEvents]
    returns both for the same cursor. *)
Theorem unknown_cursor_gives_empty_page :
  JSMap.keys (outboxQueue scenarioLog)
  = ["https://a.example/outbox/1"; "https://a.example/outbox/2"]
  /\ getOutboxEvents scenarioLog (Some "https://a.example/outbox/7") None = ([], None)
  /\ map type (fst (getOutboxEvents scenarioLog None None)) = [PostCreated; PostDeleted]
  /\ map po_id
       (MemoryFederationStorage.getOutboxEvents
          (default MemoryFederationStorage.new (storage scenarioLog))
          None (Some "https://a.example/outbox/7"))
     = ["https://a.example/outbox/1"; "https://a.example/outbox/2"].
Proof.
  assert (JSMap.keys (outboxQueue scenarioLog)
          = ["https://a.example/outbox/1"; "https://a.example/outbox/2"]) as Hk
    by (vm_compute; reflexivity).
  split; [exact Hk|]. split; [|split; vm_compute; reflexivity].
  apply getOutboxEvents_unknown_cursor; [discriminate|].
  rewrite Hk. simpl. intros [H|[H|[]]]; discriminate H.
Qed.

(** *** Delivery queue: enqueueing *)

Section Enqueue.
Context {World : Type}.
Implicit Types (m : FederationManager World) (targets : list string).













Lemma trustsInstance_config m m' u :
  config m' = config m -> trustsInstance m' u = trustsInstance m u.
Proof. unfold trustsInstance. now intros ->. Qed.


End Enqueue.


(** *** Delivery queue: draining and the retry ladder *)

Section Drain.
Context {World : Type} {H : Host World}.
Implicit Types (m : FederationManager World) (w : World) (a : DeliveryAttempt).

(** Ids of the events in the outbox, in order. *)
Definition outboxIds m : list string := map id (JSMap.values (outboxQueue m)).

Definition skipped (now : Z) a : bool :=
  negb (Status.eqb (status a) Status.pending) || (now <? nextAttempt a).

Lemma persistInstance_frame m i :
  deliveryQueue (persistInstance m i) = deliveryQueue m
  /\ outboxQueue (persistInstance m i) = outboxQueue m.
Proof. unfold persistInstance. now destruct (storage m). Qed.

Lemma persistOutboxEvent_frame m oe :
  deliveryQueue (persistOutboxEvent m oe) = deliveryQueue m
  /\ outboxQueue (persistOutboxEvent m oe) = outboxQueue m.
Proof. unfold persistOutboxEvent. now destruct (storage m). Qed.

Lemma persistDeliveryAttempt_frame m k a :
  deliveryQueue (persistDeliveryAttempt m k a) = deliveryQueue m
  /\ outboxQueue (persistDeliveryAttempt m k a) = outboxQueue m.
Proof. unfold persistDeliveryAttempt. now destruct (storage m). Qed.

Ltac frame_persist :=
  repeat match goal with
    | |- context [persistInstance ?mm ?ii] =>
        let Hq := fresh in
        let Ho := fresh in
        destruct (persistInstance_frame mm ii) as [Hq Ho]; rewrite ?Hq, ?Ho; clear Hq Ho
    | |- context [persistDeliveryAttempt ?mm ?kk ?aa] =>
        let Hq := fresh in
        let Ho := fresh in
        destruct (persistDeliveryAttempt_frame mm kk aa) as [Hq Ho];
        rewrite ?Hq, ?Ho; clear Hq Ho
    | |- context [persistOutboxEvent ?mm ?oo] =>
        let Hq := fresh in
        let Ho := fresh in
        destruct (persistOutboxEvent_frame mm oo) as [Hq Ho];
        rewrite ?Hq, ?Ho; clear Hq Ho
    end.

Lemma discoverInstance_frame m u w :
  deliveryQueue (discoverInstance m u w).1.2 = deliveryQueue m
  /\ outboxQueue (discoverInstance m u w).1.2 = outboxQueue m.
Proof.
  unfold discoverInstance.
  destruct (fetch_wellknown (wellKnownUrl u) w) as [[msg| |md] w']; simpl.
  - now destruct (JSMap.get u (knownInstances m)).
  - tauto.
  - frame_persist. simpl. tauto.
Qed.

Lemma pushToInstance_frame m e u w :
  deliveryQueue (pushToInstance m e u w).1.2 = deliveryQueue m
  /\ outboxQueue (pushToInstance m e u w).1.2 = outboxQueue m.
Proof.
  unfold pushToInstance.
  destruct (negb (trustsInstance m u)); [simpl; tauto|].
  pose proof (discoverInstance_frame m u w) as Hd.
  destruct (match JSMap.get u (knownInstances m) with
            | Some i => truthy (inbox i)
            | None => false
            end).
  - destruct (JSMap.get u (knownInstances m)) as [i|]; [|simpl; tauto].
    destruct (negb (truthy (inbox i))); [simpl; tauto|].
    destruct (fetch_inbox _ _ e w) as [[msg|st text] w']; simpl.
    + frame_persist. simpl. tauto.
    + destruct (negb (response_ok st)); simpl; [tauto|]. frame_persist. simpl. tauto.
  - destruct (discoverInstance m u w) as [[[i|] m'] w']; simpl in Hd; [|simpl; tauto].
    destruct (negb (truthy (inbox i))); [simpl; tauto|].
    destruct (fetch_inbox _ _ e w') as [[msg|st text] w'']; simpl.
    + frame_persist. exact Hd.
    + destruct (negb (response_ok st)); simpl; [exact Hd|]. frame_persist. exact Hd.
Qed.

Lemma mutate_first_ids (p : OutboxEvent -> bool) u (q : JSMap.t OutboxEvent) :
  map id (JSMap.values (mutate_first p (add_delivered u) q)) = map id (JSMap.values q).
Proof.
  induction q as [|[k v] q IH]; simpl; [reflexivity|].
  destruct (p v); simpl; [reflexivity | now rewrite <- IH].
Qed.

Lemma findEvent_Some m eventId :
  In eventId (outboxIds m) -> exists oe, findEvent m eventId = Some oe.
Proof.
  unfold outboxIds, findEvent. induction (JSMap.values (outboxQueue m)) as [|e l IH]; simpl.
  - tauto.
  - intros [<- | Hin].
    + rewrite String.eqb_refl. eauto.
    + destruct (String.eqb (id e) eventId); eauto.
Qed.

Lemma drainOne_skipped now k a m w r :
  skipped now a = true -> drainOne now (k, a) m w r = (r, m, w).
Proof. unfold skipped, drainOne. now intros ->. Qed.

(** One step touches the delivery queue at its own key only, and keeps the
    ids of the outbox. *)
Lemma drainOne_frame now k a m w r :
  let m' := (drainOne now (k, a) m w r).1.2 in
  (forall k', k <> k' ->
              JSMap.get k' (deliveryQueue m') = JSMap.get k' (deliveryQueue m))
  /\ outboxIds m' = outboxIds m
  /\ (JSMap.wf (deliveryQueue m) -> JSMap.wf (deliveryQueue m')).
Proof.
  unfold drainOne.
  destruct (negb (Status.eqb (status a) Status.pending) || (now <? nextAttempt a));
    [simpl; tauto|].
  destruct (findEvent m (da_eventId a)) as [oe|].
  - pose proof (pushToInstance_frame m (event oe) (da_instanceUri a) w) as [Hq Ho].
    destruct (pushToInstance m (event oe) (da_instanceUri a) w) as [[res m1] w1].
    simpl in Hq, Ho. cbn [fst snd]. unfold outboxIds.
    destruct (success res); frame_persist; simpl;
      rewrite ?mutate_first_ids, Hq, Ho;
      (split; [|split]; [|reflexivity|]);
      [intros k' Hne; now apply JSMapFacts.get_set_ne | apply JSMapFacts.wf_set
      |intros k' Hne; now apply JSMapFacts.get_set_ne | apply JSMapFacts.wf_set].
  - simpl. split; [|split]; [|reflexivity|].
    + intros k' Hne. now apply JSMapFacts.get_delete_ne.
    + apply JSMapFacts.wf_delete.
Qed.

Definition prunable (now : Z) a : bool :=
  negb (Status.eqb (status a) Status.pending) && (lastAttempt a <? now - 3600000).

Lemma drainLoop_cons now entry entries m w r :
  drainLoop now (entry :: entries) m w r
  = drainLoop now entries (drainOne now entry m w r).1.2
      (drainOne now entry m w r).2 (drainOne now entry m w r).1.1.
Proof. simpl. now destruct (drainOne now entry m w r) as [[r1 m1] w1]. Qed.

Lemma drainLoop_frame now entries m w r :
  outboxIds (drainLoop now entries m w r).1.2 = outboxIds m
  /\ (JSMap.wf (deliveryQueue m) ->
      JSMap.wf (deliveryQueue (drainLoop now entries m w r).1.2)).
Proof.
  revert m w r. induction entries as [|[k a] entries IH]; intros m w r; [simpl; tauto|].
  rewrite drainLoop_cons.
  destruct (drainOne_frame now k a m w r) as [_ [Hids Hwf]].
  destruct (IH (drainOne now (k, a) m w r).1.2 (drainOne now (k, a) m w r).2
               (drainOne now (k, a) m w r).1.1) as [-> Hwf'].
  split; [exact Hids | auto].
Qed.

(** A key all of whose entries are skipped keeps its attempt. *)
Lemma drainLoop_untouched now entries k m w r :
  (forall a', In (k, a') entries -> skipped now a' = true) ->
  JSMap.get k (deliveryQueue (drainLoop now entries m w r).1.2)
  = JSMap.get k (deliveryQueue m).
Proof.
  revert m w r. induction entries as [|[k0 a0] entries IH]; intros m w r Hskip;
    [reflexivity|].
  rewrite drainLoop_cons, IH by (intros a' Hin; apply Hskip; now right).
  destruct (decide (k0 = k)) as [-> | Hne].
  - rewrite drainOne_skipped; [reflexivity|]. apply Hskip. now left.
  - now apply drainOne_frame.
Qed.

Section FailingTarget.
Context (target : string) (reported : option string -> Prop).
Context (push_fails :
           forall m e w,
             success (pushToInstance m e target w).1.1 = false
             /\ reported (error (pushToInstance m e target w).1.1)).



End FailingTarget.

Lemma pruneOne_frame now m k a :
  (forall k', k <> k' ->
              JSMap.get k' (deliveryQueue (pruneOne now m (k, a)))
              = JSMap.get k' (deliveryQueue m))
  /\ outboxIds (pruneOne now m (k, a)) = outboxIds m
  /\ (JSMap.wf (deliveryQueue m) -> JSMap.wf (deliveryQueue (pruneOne now m (k, a)))).
Proof.
  unfold pruneOne.
  destruct (negb (Status.eqb (status a) Status.pending)
            && (lastAttempt a <? now - 3600000)); [|tauto].
  simpl. split; [|split]; [|reflexivity|].
  - intros k' Hne. now apply JSMapFacts.get_delete_ne.
  - apply JSMapFacts.wf_delete.
Qed.


(** The sweep either leaves a key alone or removes it, and removes it only
    for an entry that is terminal and older than an hour. *)
Lemma prune_either now entries k m :
  JSMap.get k (deliveryQueue (fold_left (pruneOne now) entries m))
  = JSMap.get k (deliveryQueue m)
  \/ (JSMap.get k (deliveryQueue (fold_left (pruneOne now) entries m)) = None
      /\ exists a', In (k, a') entries /\ prunable now a' = true).
Proof.
  revert m. induction entries as [|[k0 a0] entries IH]; intros m; [now left|].
  cbn [fold_left].
  destruct (IH (pruneOne now m (k0, a0))) as [Hsame | [Hnone [a' [Hin Hp]]]].
  - rewrite Hsame. destruct (decide (k0 = k)) as [-> | Hne].
    + unfold pruneOne. fold (prunable now a0).
      destruct (prunable now a0) eqn:Hp; [|now left].
      right. simpl. split; [apply JSMapFacts.get_delete_eq|].
      exists a0. split; [now left | exact Hp].
    + left. now apply pruneOne_frame.
  - right. split; [exact Hnone|]. exists a'. split; [now right | exact Hp].
Qed.

Lemma recordPush_not_prunable now res a : prunable now (recordPush now res a) = false.
Proof.
  unfold prunable, recordPush.
  assert ((now <? (now - 3600000)) = false) as Hlt by (apply Z.ltb_ge; lia).
  destruct (success res); [|destruct (Nat.leb MAX_RETRY_ATTEMPTS (S (attemptCount a)))];
    cbn [status lastAttempt]; rewrite Hlt; apply andb_false_r.
Qed.

(** The manager after one drain cycle. *)
Definition drained m (now : Z) w : FederationManager World :=
  (processDeliveryQueue m now w).1.2.

Lemma drained_unfold m now w :
  drained m now w
  = fold_left (pruneOne now)
      (deliveryQueue
         (drainLoop now (deliveryQueue m) m w
            {| processed := 0; succeeded := 0; failed := 0 |}).1.2)
      (drainLoop now (deliveryQueue m) m w
         {| processed := 0; succeeded := 0; failed := 0 |}).1.2.
Proof.
  unfold drained, processDeliveryQueue.
  now destruct (drainLoop now (deliveryQueue m) m w _) as [[r1 m1] w1].
Qed.




End Drain.

Section RetryLadder.
Context {World : Type} {H : Host World}.
Context (target : string) (reported : option string -> Prop).
Context (push_fails :
           forall (m : FederationManager World) e w,
             success (pushToInstance m e target w).1.1 = false
             /\ reported (error (pushToInstance m e target w).1.1)).
Implicit Types (m : FederationManager World) (w : World) (a : DeliveryAttempt).








End RetryLadder.



(** *** Restart *)



Lemma insert_by_perm {A} (f : A -> Z) x l : Permutation (insert_by f x l) (x :: l).
Proof.
  induction l as [|y l IH]; simpl; [reflexivity|].
  destruct (f x <=? f y); [reflexivity|].
  rewrite IH. apply perm_swap.
Qed.

Lemma sort_by_perm {A} (f : A -> Z) l : Permutation (sort_by f l) l.
Proof.
  unfold sort_by. induction l as [|x l IH]; simpl; [reflexivity|].
  rewrite insert_by_perm. now apply perm_skip.
Qed.




Lemma NoDup_map_filter {A B} (g : A -> B) (p : A -> bool) l :
  List.NoDup (map g l) -> List.NoDup (map g (List.filter p l)).
Proof.
  induction l as [|x l IH]; simpl; [auto|].
  intros Hnd. apply List.NoDup_cons_iff in Hnd as [Hx Hnd].
  destruct (p x); simpl; [|auto].
  apply List.NoDup_cons_iff. split; [|auto].
  intros Hin. apply Hx. apply in_map_iff in Hin as [y [Hy Hin]].
  apply filter_In in Hin as [Hin _]. apply in_map_iff. eauto.
Qed.


(** A table of the store: one entry per record, under the record's key. *)
Definition keyed {V} (kf : V -> string) (t : JSMap.t V) : Prop :=
  JSMap.wf t /\ Forall (fun kv => kv.1 = kf kv.2) t.

Lemma keyed_keys {V} (kf : V -> string) (t : JSMap.t V) :
  keyed kf t -> map kf (JSMap.values t) = JSMap.keys t.
Proof.
  intros [_ Hk]. unfold JSMap.values, JSMap.keys.
  induction t as [|[k v] t IH]; simpl; [reflexivity|].
  apply Forall_cons_iff in Hk as [Hkv Hk]. simpl in Hkv. rewrite IH by exact Hk.
  now rewrite Hkv.
Qed.

Lemma keyed_empty {V} (kf : V -> string) : keyed kf (@JSMap.empty V).
Proof. split; constructor. Qed.

Lemma keyed_set {V} (kf : V -> string) (t : JSMap.t V) v :
  keyed kf t -> keyed kf (JSMap.set (kf v) v t).
Proof.
  intros [Hwf Hk]. split; [now apply JSMapFacts.wf_set|].
  clear Hwf. induction t as [|[k0 v0] t IH]; simpl.
  - now repeat constructor.
  - apply Forall_cons_iff in Hk as [Hkv Hk].
    destruct (String.eqb k0 (kf v)) eqn:Heq.
    + apply String.eqb_eq in Heq. constructor; [exact Heq | exact Hk].
    + constructor; [exact Hkv | auto].
Qed.

Lemma keyed_delete {V} (kf : V -> string) (t : JSMap.t V) k :
  keyed kf t -> keyed kf (JSMap.delete k t).
Proof.
  intros [Hwf Hk]. split; [now apply JSMapFacts.wf_delete|].
  clear Hwf. induction t as [|[k0 v0] t IH]; simpl; [constructor|].
  apply Forall_cons_iff in Hk as [Hkv Hk].
  destruct (String.eqb k0 k); [auto | constructor; auto].
Qed.

(** What every store built from [new] by its own operations satisfies. *)
Definition store_wf (s : MemoryFederationStorage.t) : Prop :=
  keyed p_uri (MemoryFederationStorage.instances s)
  /\ keyed po_id (MemoryFederationStorage.outbox s)
  /\ keyed key (MemoryFederationStorage.deliveryQueue s).

Lemma store_wf_operations :
  store_wf MemoryFederationStorage.new
  /\ (forall s i, store_wf s -> store_wf (MemoryFederationStorage.saveInstance s i))
  /\ (forall s e, store_wf s -> store_wf (MemoryFederationStorage.saveOutboxEvent s e))
  /\ (forall s a, store_wf s -> store_wf (MemoryFederationStorage.saveDeliveryAttempt s a))
  /\ (forall s k, store_wf s -> store_wf (MemoryFederationStorage.deleteOutboxEvent s k))
  /\ (forall s k, store_wf s -> store_wf (MemoryFederationStorage.deleteDeliveryAttempt s k)).
Proof.
  unfold store_wf.
  split; [split; [|split]; apply keyed_empty|].
  repeat (split; [intros s x (Hi & Ho & Hd); simpl; (split; [|split]);
                  try assumption; first [now apply keyed_set | now apply keyed_delete]|]).
  intros s x (Hi & Ho & Hd); simpl. split; [|split]; try assumption.
  now apply keyed_delete.
Qed.

Section Restart.
Context {World : Type}.
Implicit Types (m : FederationManager World) (s : MemoryFederationStorage.t).


















End Restart.



(** Two places where the manager changes without the store following, so
    that the store stops mirroring it: the error of a failed discovery is
    recorded on the known instance only in memory, and an attempt dropped
    because its event is gone stays in the store. *)
Example store_does_not_follow :
  (map lastError (getKnownInstances scenarioUnreachable) = [Some "fetch failed"]
   /\ map p_lastError
        (MemoryFederationStorage.getInstances
           (default MemoryFederationStorage.new (storage scenarioUnreachable)))
      = [None])
  /\ (JSMap.keys (deliveryQueue scenarioOrphan)
      = ["https://c.example:https://a.example/outbox/0"]
      /\ JSMap.keys (deliveryQueue scenarioOrphanDropped) = []
      /\ JSMap.keys
           (MemoryFederationStorage.deliveryQueue
              (default MemoryFederationStorage.new (storage scenarioOrphanDropped)))
         = ["https://c.example:https://a.example/outbox/0"]).
Proof. repeat split; vm_compute; reflexivity. Qed.

(** ** Further properties *)

(** *** Maps: deletion and filtering *)

Section MoreMapFacts.
Context {V : Type}.
Implicit Types (m : JSMap.t V) (k : string) (v : V).

Definition keyIs k (kv : string * V) : bool := String.eqb (fst kv) k.

Lemma delete_filter k m : JSMap.delete k m = List.filter (fun kv => negb (keyIs k kv)) m.
Proof.
  unfold keyIs. induction m as [|[k0 v0] m IH]; simpl; [reflexivity|].
  destruct (String.eqb k0 k); simpl; now rewrite IH.
Qed.

Lemma delete_absent k m : ~ In k (JSMap.keys m) -> JSMap.delete k m = m.
Proof.
  induction m as [|[k0 v0] m IH]; simpl; [reflexivity|].
  intros Hn. destruct (String.eqb k0 k) eqn:Hk.
  - apply String.eqb_eq in Hk. tauto.
  - f_equal. apply IH. tauto.
Qed.

Lemma keys_filter_incl (q : string * V -> bool) m k :
  In k (JSMap.keys (List.filter q m)) -> In k (JSMap.keys m).
Proof.
  unfold JSMap.keys. rewrite !in_map_iff. intros [kv [Hk Hin]].
  apply filter_In in Hin as [Hin _]. eauto.
Qed.

Lemma wf_filter (q : string * V -> bool) m : JSMap.wf m -> JSMap.wf (List.filter q m).
Proof. unfold JSMap.wf, JSMap.keys. apply NoDup_map_filter. Qed.

Lemma get_filter (q : string * V -> bool) m k :
  JSMap.wf m ->
  JSMap.get k (List.filter q m)
  = match JSMap.get k m with
    | Some v => if q (k, v) then Some v else None
    | None => None
    end.
Proof.
  intros Hwf. destruct (JSMap.get k m) as [v|] eqn:Hg.
  - destruct (q (k, v)) eqn:Hq.
    + apply JSMapFacts.In_get; [now apply wf_filter|].
      apply filter_In. split; [now apply JSMapFacts.get_Some_In | exact Hq].
    + apply JSMapFacts.get_None. intros Hin.
      unfold JSMap.keys in Hin. apply in_map_iff in Hin as [[k' v'] [Hk Hin]].
      simpl in Hk. subst k'. apply filter_In in Hin as [Hin Hq'].
      apply (JSMapFacts.In_get _ _ _ Hwf) in Hin. congruence.
  - apply JSMapFacts.get_None. intros Hin. apply keys_filter_incl in Hin.
    now apply JSMapFacts.get_None in Hg.
Qed.

Lemma delete_all_filter (ks : list string) m :
  fold_left (fun m k => JSMap.delete k m) ks m
  = List.filter (fun kv => negb (existsb (String.eqb (fst kv)) ks)) m.
Proof.
  revert m. induction ks as [|k ks IH]; intros m; simpl.
  - induction m as [|kv m IHm]; simpl; [reflexivity | now rewrite <- IHm].
  - rewrite IH, delete_filter. unfold keyIs.
    induction m as [|kv m IHm]; simpl; [reflexivity|].
    destruct (String.eqb (fst kv) k); simpl; [exact IHm|].
    destruct (existsb (String.eqb (fst kv)) ks); simpl; [exact IHm | now rewrite IHm].
Qed.

Lemma deleteIf_fold (p : V -> bool) (es : list (string * V)) m (n : nat) :
  fold_left (MemoryFederationStorage.deleteIf p) es (m, n)
  = (fold_left (fun m k => JSMap.delete k m)
       (JSMap.keys (List.filter (fun kv => p (snd kv)) es)) m,
     (n + length (List.filter (fun kv => p (snd kv)) es))%nat).
Proof.
  revert m n. induction es as [|[k v] es IH]; intros m n; simpl.
  - now rewrite Nat.add_0_r.
  - unfold MemoryFederationStorage.deleteIf at 2. simpl.
    destruct (p v); simpl; rewrite IH; [f_equal; lia | reflexivity].
Qed.

(** A loop that deletes the selected entries of the map it iterates is a
    filter, and it counts what the filter drops. *)
Lemma deleteIf_all (p : V -> bool) m :
  JSMap.wf m ->
  fold_left (MemoryFederationStorage.deleteIf p) m (m, O)
  = (List.filter (fun kv => negb (p (snd kv))) m,
     length (List.filter (fun kv => p (snd kv)) m)).
Proof.
  intros Hwf. rewrite deleteIf_fold, delete_all_filter. simpl. f_equal.
  apply filter_ext_in. intros [k v] Hin. simpl. f_equal.
  destruct (p v) eqn:Hp.
  - apply existsb_exists. exists k. split; [|apply String.eqb_refl].
    unfold JSMap.keys. apply in_map_iff. exists (k, v). split; [reflexivity|].
    apply filter_In. auto.
  - apply not_true_is_false. intros Hex. apply existsb_exists in Hex as [k' [Hin' Hk]].
    apply String.eqb_eq in Hk. subst k'.
    unfold JSMap.keys in Hin'. apply in_map_iff in Hin' as [[k' v'] [Hk' Hin']].
    simpl in Hk'. subst k'. apply filter_In in Hin' as [Hin' Hp']. simpl in Hp'.
    apply (JSMapFacts.In_get _ _ _ Hwf) in Hin, Hin'. congruence.
Qed.

Lemma filter_split_length (q : string * V -> bool) m :
  length m
  = (length (List.filter (fun kv => negb (q kv)) m) + length (List.filter q m))%nat.
Proof.
  induction m as [|kv m IH]; simpl; [reflexivity|].
  destruct (q kv); simpl; lia.
Qed.

Lemma size_delete_present k m :
  JSMap.wf m -> In k (JSMap.keys m) -> S (JSMap.size (JSMap.delete k m)) = JSMap.size m.
Proof.
  unfold JSMap.wf, JSMap.size. induction m as [|[k0 v0] m IH]; simpl; [tauto|].
  intros Hnd Hin. apply List.NoDup_cons_iff in Hnd as [Hk0 Hnd].
  destruct (String.eqb k0 k) eqn:Hk.
  - apply String.eqb_eq in Hk. subst k0. now rewrite delete_absent.
  - apply String.eqb_neq in Hk. simpl. f_equal. apply IH; [exact Hnd | tauto].
Qed.

Lemma keys_delete k k' m :
  In k' (JSMap.keys (JSMap.delete k m)) <-> In k' (JSMap.keys m) /\ k <> k'.
Proof.
  induction m as [|[k0 v0] m IH]; simpl; [tauto|].
  destruct (String.eqb k0 k) eqn:Hk.
  - apply String.eqb_eq in Hk. subst k0. rewrite IH.
    split; [tauto|]. intros [[Heq | Hin] Hne]; [congruence | tauto].
  - apply String.eqb_neq in Hk. simpl. rewrite IH.
    split; [intros [Heq | [Hin Hne]]; [subst k0|]; auto | tauto].
Qed.

Lemma size_delete_all (ks : list string) m :
  JSMap.wf m ->
  List.NoDup ks ->
  (forall k, In k ks -> In k (JSMap.keys m)) ->
  (JSMap.size (fold_left (fun m k => JSMap.delete k m) ks m) + length ks)%nat
  = JSMap.size m.
Proof.
  revert m. induction ks as [|k ks IH]; intros m Hwf Hnd Hin; simpl; [lia|].
  apply List.NoDup_cons_iff in Hnd as [Hk Hnd].
  rewrite <- (size_delete_present k m Hwf) by (apply Hin; now left).
  rewrite <- (IH (JSMap.delete k m)); [lia | now apply JSMapFacts.wf_delete | exact Hnd |].
  intros k' Hk'. apply keys_delete. split; [apply Hin; now right | congruence].
Qed.

End MoreMapFacts.

(** *** Persistence port: pruning, delivery marks, statistics *)

Section StoreFacts.
Import MemoryFederationStorage.

Lemma keyed_filter {V} (kf : V -> string) (q : string * V -> bool) (t : JSMap.t V) :
  keyed kf t -> keyed kf (List.filter q t).
Proof.
  intros [Hwf Hk]. split; [now apply wf_filter|].
  apply List.Forall_forall. intros kv Hin. apply filter_In in Hin as [Hin _].
  eapply List.Forall_forall in Hk; eauto.
Qed.

Lemma keyed_get {V} (kf : V -> string) (t : JSMap.t V) k v :
  keyed kf t -> JSMap.get k t = Some v -> k = kf v.
Proof.
  intros [_ Hk] Hg. apply JSMapFacts.get_Some_In in Hg.
  eapply List.Forall_forall in Hk; [|exact Hg]. exact Hk.
Qed.

Lemma delete_counting_fold {V} (toDelete : list (string * V)) (box : JSMap.t V) (n : nat) :
  fold_left (fun acc kv => (JSMap.delete (fst kv) (fst acc), S (snd acc))) toDelete (box, n)
  = (fold_left (fun m k => JSMap.delete k m) (JSMap.keys toDelete) box,
     (n + length toDelete)%nat).
Proof.
  revert box n. induction toDelete as [|kv l IH]; intros box n; simpl.
  - now rewrite Nat.add_0_r.
  - rewrite IH. f_equal. lia.
Qed.

(** The attempts [pruneOldDeliveries] removes. *)
Definition expired (olderThan : Z) (a : PersistedDeliveryAttempt) : bool :=
  negb (Status.eqb (pd_status a) Status.pending) && (pd_lastAttempt a <? olderThan).

Lemma pruneOldDeliveries_filter s olderThan :
  JSMap.wf (deliveryQueue s) ->
  pruneOldDeliveries s olderThan
  = (length (List.filter (fun kv => expired olderThan (snd kv)) (deliveryQueue s)),
     {| instances := instances s; outbox := outbox s;
        deliveryQueue :=
          List.filter (fun kv => negb (expired olderThan (snd kv))) (deliveryQueue s) |}).
Proof.
  intros Hwf. unfold pruneOldDeliveries.
  change (fun a => negb (Status.eqb (pd_status a) Status.pending)
                   && (pd_lastAttempt a <? olderThan)) with (expired olderThan).
  now rewrite (deleteIf_all (expired olderThan) _ Hwf).
Qed.

(** X1.  [pruneOldDeliveries] removes exactly the attempts that are terminal and
    were last tried before [olderThan], so never a pending one; it returns
    how many it removed and leaves the other tables alone. *)
Theorem pruneOldDeliveries_removes_old_terminal s olderThan :
  JSMap.wf (deliveryQueue s) ->
  let n := (pruneOldDeliveries s olderThan).1 in
  let s' := (pruneOldDeliveries s olderThan).2 in
  (forall k,
      getDeliveryAttempt s' k
      = match getDeliveryAttempt s k with
        | Some a => if expired olderThan a then None else Some a
        | None => None
        end)
  /\ (forall k a,
        getDeliveryAttempt s k = Some a -> pd_status a = Status.pending ->
        getDeliveryAttempt s' k = Some a)
  /\ (JSMap.size (deliveryQueue s') + n)%nat = JSMap.size (deliveryQueue s)
  /\ instances s' = instances s /\ outbox s' = outbox s.
Proof.
  intros Hwf. cbv zeta. rewrite (pruneOldDeliveries_filter s olderThan Hwf).
  cbn [fst snd]. unfold getDeliveryAttempt. cbn [deliveryQueue instances outbox].
  assert (forall k,
             JSMap.get k (List.filter (fun kv => negb (expired olderThan (snd kv)))
                            (deliveryQueue s))
             = match JSMap.get k (deliveryQueue s) with
               | Some a => if expired olderThan a then None else Some a
               | None => None
               end) as Hget.
  { intros k. rewrite get_filter by exact Hwf.
    destruct (JSMap.get k (deliveryQueue s)) as [a|]; [|reflexivity].
    simpl. now destruct (expired olderThan a). }
  split; [exact Hget|]. split; [|split; [|split; reflexivity]].
  - intros k a Hg Hst. rewrite Hget, Hg. unfold expired. now rewrite Hst.
  - unfold JSMap.size.
    now rewrite (filter_split_length (fun kv => expired olderThan (snd kv)) (deliveryQueue s)).
Qed.

Lemma pruneOldOutboxEvents_outbox s maxAgeMs maxCount now :
  JSMap.wf (outbox s) ->
  let young := List.filter (fun kv => negb (po_created (snd kv) <? now - maxAgeMs)) (outbox s) in
  let toDelete :=
    if (maxCount <? JSMap.size young)%nat
    then take (length young - maxCount)
              (sort_by (fun kv : string * PersistedOutboxEvent => po_created (snd kv)) young)
    else [] in
  pruneOldOutboxEvents s maxAgeMs maxCount now
  = ((length (List.filter (fun kv => (po_created (snd kv) <? now - maxAgeMs)%Z) (outbox s))
      + length toDelete)%nat,
     {| instances := instances s;
        outbox := fold_left (fun m k => JSMap.delete k m) (JSMap.keys toDelete) young;
        deliveryQueue := deliveryQueue s |}).
Proof.
  intros Hwf young toDelete. unfold pruneOldOutboxEvents.
  rewrite (deleteIf_all (fun e => po_created e <? now - maxAgeMs) _ Hwf).
  fold young. unfold toDelete.
  destruct (maxCount <? JSMap.size young)%nat.
  - rewrite delete_counting_fold.
    rewrite (Permutation_length (sort_by_perm _ young)). reflexivity.
  - simpl. now rewrite Nat.add_0_r.
Qed.

(** X2.  After [pruneOldOutboxEvents] no event older than [maxAgeMs] is left and
    at most [maxCount] events are left; every event left was there before,
    unchanged; the number returned is the number of events removed. *)
Theorem pruneOldOutboxEvents_bounds s maxAgeMs maxCount now :
  JSMap.wf (outbox s) ->
  let n := (pruneOldOutboxEvents s maxAgeMs maxCount now).1 in
  let s' := (pruneOldOutboxEvents s maxAgeMs maxCount now).2 in
  (JSMap.size (outbox s') <= maxCount)%nat
  /\ (forall id e, getOutboxEvent s' id = Some e ->
                  getOutboxEvent s id = Some e /\ now - maxAgeMs <= po_created e)
  /\ (JSMap.size (outbox s') + n)%nat = JSMap.size (outbox s)
  /\ instances s' = instances s /\ deliveryQueue s' = deliveryQueue s.
Proof.
  intros Hwf. cbv zeta. rewrite (pruneOldOutboxEvents_outbox s maxAgeMs maxCount now Hwf).
  cbn [fst snd outbox instances deliveryQueue].
  set (young := List.filter (fun kv => negb (po_created (snd kv) <? now - maxAgeMs)) (outbox s)).
  set (sorted := sort_by (fun kv : string * PersistedOutboxEvent => po_created (snd kv)) young).
  set (toDelete := if (maxCount <? JSMap.size young)%nat
                   then take (length young - maxCount) sorted else []).
  assert (JSMap.wf young) as Hwfy by (now apply wf_filter).
  assert (Permutation sorted young) as Hperm by apply sort_by_perm.
  assert (List.NoDup (JSMap.keys toDelete)
          /\ (forall k, In k (JSMap.keys toDelete) -> In k (JSMap.keys young))
          /\ (length toDelete = JSMap.size young - maxCount)%nat) as (Hnd & Hsub & Hlen).
  { unfold toDelete. destruct (maxCount <? JSMap.size young)%nat eqn:Hlt.
    - assert (List.NoDup (JSMap.keys sorted)) as Hnds.
      { eapply Permutation_NoDup; [apply Permutation_map; symmetry; exact Hperm|].
        exact Hwfy. }
      split; [|split].
      + unfold JSMap.keys in *. rewrite <- (firstn_skipn (length young - maxCount) sorted) in Hnds.
        rewrite map_app in Hnds. now apply List.NoDup_app_remove_r in Hnds.
      + intros k Hin. unfold JSMap.keys in *. apply in_map_iff in Hin as [kv [Hk Hin]].
        apply in_map_iff. exists kv. split; [exact Hk|].
        eapply Permutation_in; [exact Hperm|].
        rewrite <- (firstn_skipn (length young - maxCount) sorted).
        apply in_or_app. left. exact Hin.
      + rewrite length_take, (Permutation_length Hperm). unfold JSMap.size. lia.
    - apply Nat.ltb_ge in Hlt. simpl. split; [constructor|]. split; [tauto | lia]. }
  pose proof (size_delete_all (JSMap.keys toDelete) young Hwfy Hnd Hsub) as Hsize.
  unfold JSMap.keys at 2 in Hsize. rewrite length_map in Hsize.
  split; [|split; [|split; [|split; reflexivity]]].
  - destruct (maxCount <? JSMap.size young)%nat eqn:Hlt;
      [apply Nat.ltb_lt in Hlt | apply Nat.ltb_ge in Hlt]; lia.
  - intros id e Hg. unfold getOutboxEvent in *. cbn [outbox] in Hg.
    rewrite delete_all_filter in Hg. rewrite get_filter in Hg by exact Hwfy.
    destruct (JSMap.get id young) as [e'|] eqn:Hy; [|discriminate].
    unfold young in Hy. rewrite get_filter in Hy by exact Hwf.
    destruct (JSMap.get id (outbox s)) as [e''|]; [|discriminate].
    simpl in Hy. destruct (po_created e'' <? now - maxAgeMs) eqn:Hold; [discriminate|].
    injection Hy as ->. simpl in Hg.
    destruct (existsb (String.eqb id) (JSMap.keys toDelete)); [discriminate|].
    injection Hg as ->. split; [reflexivity|]. apply Z.ltb_ge in Hold. exact Hold.
  - pose proof (filter_split_length
                  (fun kv => po_created (snd kv) <? now - maxAgeMs) (outbox s)) as Hsplit.
    change (List.filter _ (outbox s)) with young in Hsplit at 1.
    unfold JSMap.size in *. lia.
Qed.

Lemma existsb_eqb_In (u : string) (l : list string) :
  existsb (String.eqb u) l = true <-> In u l.
Proof.
  rewrite existsb_exists. split.
  - intros [x [Hin Heq]]. apply String.eqb_eq in Heq. now subst.
  - intros Hin. exists u. split; [exact Hin | apply String.eqb_refl].
Qed.

(** X3.  [markDelivered] records a target on the stored event once: on an
    unknown event or a target already recorded it changes nothing, otherwise
    it appends the target to that event's list; so a second call is a no-op,
    no other event changes and no event is added or removed. *)
Theorem markDelivered_records_once s eventId instanceUri :
  let s' := markDelivered s eventId instanceUri in
  markDelivered s' eventId instanceUri = s'
  /\ (forall id,
        getOutboxEvent s' id
        = match getOutboxEvent s id with
          | Some e =>
              if String.eqb eventId id
                 && negb (existsb (String.eqb instanceUri) (deliveredTo e))
              then Some {| po_id := po_id e; po_event := po_event e;
                           po_created := po_created e;
                           deliveredTo := deliveredTo e ++ [instanceUri] |}
              else Some e
          | None => None
          end)
  /\ JSMap.keys (outbox s') = JSMap.keys (outbox s)
  /\ instances s' = instances s /\ deliveryQueue s' = deliveryQueue s.
Proof.
  cbv zeta. unfold markDelivered, getOutboxEvent.
  destruct (JSMap.get eventId (outbox s)) as [e|] eqn:Hg.
  - destruct (existsb (String.eqb instanceUri) (deliveredTo e)) eqn:Hex.
    + rewrite Hg, Hex. split; [reflexivity|]. split; [|repeat split].
      intros id. destruct (JSMap.get id (outbox s)) as [e'|] eqn:Hg'; [|reflexivity].
      destruct (String.eqb eventId id) eqn:Hid; [|reflexivity].
      apply String.eqb_eq in Hid. subst id. rewrite Hg in Hg'. injection Hg' as <-.
      now rewrite Hex.
    + cbn [outbox instances deliveryQueue]. rewrite JSMapFacts.get_set_eq.
      cbn [deliveredTo]. rewrite existsb_app. simpl. rewrite String.eqb_refl.
      rewrite orb_true_r. split; [reflexivity|]. split; [|split; [|split; reflexivity]].
      * intros id. destruct (String.eqb eventId id) eqn:Hid.
        -- apply String.eqb_eq in Hid. subst id.
           now rewrite JSMapFacts.get_set_eq, Hg, Hex.
        -- apply String.eqb_neq in Hid. rewrite JSMapFacts.get_set_ne by exact Hid.
           now destruct (JSMap.get id (outbox s)).
      * rewrite JSMapFacts.keys_set.
        assert (JSMap.has eventId (outbox s) = true) as ->; [|reflexivity].
        unfold JSMap.has. now rewrite Hg.
  - rewrite Hg. split; [reflexivity|]. split; [|repeat split].
    intros id. destruct (JSMap.get id (outbox s)) as [e'|] eqn:Hg'; [|reflexivity].
    destruct (String.eqb eventId id) eqn:Hid; [|reflexivity].
    apply String.eqb_eq in Hid. subst id. congruence.
Qed.

Definition countStatus (st : Status.t) (l : list PersistedDeliveryAttempt) : nat :=
  length (List.filter (fun a => Status.eqb (pd_status a) st) l).

Lemma countAttempt_fold l stats :
  fold_left countAttempt l stats
  = {| stats_pending := (stats_pending stats + countStatus Status.pending l)%nat;
       stats_delivered := (stats_delivered stats + countStatus Status.delivered l)%nat;
       stats_failed := (stats_failed stats + countStatus Status.failed l)%nat |}.
Proof.
  revert stats. induction l as [|a l IH]; intros stats; simpl.
  - destruct stats. unfold countStatus. simpl. f_equal; lia.
  - rewrite IH. unfold countAttempt, countStatus. simpl.
    destruct (pd_status a); simpl; f_equal; lia.
Qed.

(** X4.  [getDeliveryStats] counts the attempts of the store by status, and
    the three counts add up to the number of attempts. *)
Theorem getDeliveryStats_partition s :
  let stats := getDeliveryStats s in
  let attempts := JSMap.values (deliveryQueue s) in
  stats_pending stats = countStatus Status.pending attempts
  /\ stats_delivered stats = countStatus Status.delivered attempts
  /\ stats_failed stats = countStatus Status.failed attempts
  /\ (stats_pending stats + stats_delivered stats + stats_failed stats)%nat
     = JSMap.size (deliveryQueue s).
Proof.
  cbv zeta. unfold getDeliveryStats. rewrite countAttempt_fold. cbn.
  repeat split. unfold JSMap.size, JSMap.values, countStatus.
  induction (deliveryQueue s) as [|[k a] q IH]; simpl; [reflexivity|].
  destruct (pd_status a); simpl; lia.
Qed.

Lemma insert_by_sorted {A} (f : A -> Z) x l :
  StronglySorted Z.le (map f l) -> StronglySorted Z.le (map f (insert_by f x l)).
Proof.
  induction l as [|y l IH]; simpl; intros Hs.
  - repeat constructor.
  - destruct (f x <=? f y) eqn:Hxy.
    + apply Z.leb_le in Hxy. simpl. constructor; [exact Hs|].
      apply StronglySorted_inv in Hs as [_ Hy]. constructor; [exact Hxy|].
      eapply List.Forall_impl; [|exact Hy]. simpl. intros; lia.
    + apply Z.leb_gt in Hxy. apply StronglySorted_inv in Hs as [Hl Hy]. simpl.
      constructor; [auto|].
      apply List.Forall_forall. intros z Hz. apply in_map_iff in Hz as [b [<- Hb]].
      eapply Permutation_in in Hb; [|apply insert_by_perm].
      destruct Hb as [<- | Hb]; [lia|].
      eapply List.Forall_forall in Hy; [exact Hy|]. now apply in_map.
Qed.

Lemma sort_by_StronglySorted {A} (f : A -> Z) l :
  StronglySorted Z.le (map f (sort_by f l)).
Proof.
  unfold sort_by. induction l as [|x l IH]; simpl; [constructor|].
  now apply insert_by_sorted.
Qed.

Lemma StronglySorted_drop n (l : list Z) :
  StronglySorted Z.le l -> StronglySorted Z.le (drop n l).
Proof.
  revert l. induction n as [|n IH]; intros l Hs; [exact Hs|].
  destruct l as [|x l]; [constructor|]. simpl. apply IH.
  now apply StronglySorted_inv in Hs.
Qed.

Lemma StronglySorted_take n (l : list Z) :
  StronglySorted Z.le l -> StronglySorted Z.le (take n l).
Proof.
  revert l. induction n as [|n IH]; intros l Hs; [constructor|].
  destruct l as [|x l]; [constructor|]. simpl.
  apply StronglySorted_inv in Hs as [Hl Hx]. constructor; [auto|].
  apply List.Forall_forall. intros z Hz.
  eapply List.Forall_forall in Hx; [exact Hx|].
  rewrite <- (firstn_skipn n l). apply in_or_app. now left.
Qed.

Lemma findIndex_None since events :
  findIndex since events = None <-> ~ In since (map po_id events).
Proof.
  induction events as [|e events IH]; simpl; [tauto|].
  destruct (String.eqb (po_id e) since) eqn:Heq.
  - apply String.eqb_eq in Heq. split; [discriminate | tauto].
  - apply String.eqb_neq in Heq.
    destruct (findIndex since events); simpl.
    + split; [discriminate|]. intros Hn.
      assert (~ In since (map po_id events)) as Hin by tauto.
      apply IH in Hin. discriminate.
    + split; [|reflexivity]. intros _ [Hin | Hin]; [auto|]. now apply IH.
Qed.

(** X5.  A page of the store's [getOutboxEvents] holds at most [limit] events
    (100 when no limit or 0 is given), each an event of the store, in order of
    creation; and a cursor that names no stored event is ignored: the page is
    the one the call without cursor gives. *)
Theorem store_page_bounded_sorted_and_open s limit since :
  keyed po_id (outbox s) ->
  let page := getOutboxEvents s limit since in
  (length page <= limit_or limit 100)%nat
  /\ (forall e, In e page -> getOutboxEvent s (po_id e) = Some e)
  /\ StronglySorted Z.le (map po_created page)
  /\ (forall c, since = Some c -> ~ In c (JSMap.keys (outbox s)) ->
                page = getOutboxEvents s limit None).
Proof.
  intros Hk. cbv zeta. unfold getOutboxEvents.
  set (events := sort_by po_created (JSMap.values (outbox s))).
  set (chosen := if truthy since
                 then match findIndex (default "" since) events with
                      | Some sinceIdx => drop (S sinceIdx) events
                      | None => events
                      end
                 else events).
  assert (exists n, chosen = drop n events) as [n Hn].
  { unfold chosen. destruct (truthy since); [|now exists O].
    destruct (findIndex (default "" since) events) as [i|]; [now exists (S i) | now exists O]. }
  split; [|split; [|split]].
  - rewrite length_take. lia.
  - intros e Hin. unfold getOutboxEvent.
    assert (In e (JSMap.values (outbox s))) as Hv.
    { eapply Permutation_in; [apply (sort_by_perm po_created)|]. fold events.
      rewrite <- (firstn_skipn n events). apply in_or_app. right.
      rewrite <- Hn. rewrite <- (firstn_skipn (limit_or limit 100) chosen).
      apply in_or_app. now left. }
    unfold JSMap.values in Hv. apply in_map_iff in Hv as [[k v] [Hkv Hin']].
    simpl in Hkv. subst v. destruct Hk as [Hwf Hkeys].
    eapply List.Forall_forall in Hkeys; [|exact Hin']. simpl in Hkeys. subst k.
    now apply JSMapFacts.In_get.
  - rewrite Hn. unfold take, drop. rewrite <- firstn_map, <- skipn_map.
    apply StronglySorted_take, StronglySorted_drop, sort_by_StronglySorted.
  - intros c -> Hc. unfold chosen. simpl.
    destruct (negb (String.eqb c "")); [|reflexivity].
    assert (findIndex c events = None) as ->; [|reflexivity].
    apply findIndex_None. intros Hin. apply Hc.
    rewrite <- (keyed_keys po_id _ Hk).
    eapply Permutation_in; [|exact Hin]. apply Permutation_map, sort_by_perm.
Qed.

(** X6.  The operations that delete an instance, mark a delivery and prune
    the tables keep the store's tables keyed: one entry per key, each under
    the key of its record. *)
Theorem store_wf_pruning_operations s :
  store_wf s ->
  (forall uri, store_wf (deleteInstance s uri))
  /\ (forall eventId instanceUri, store_wf (markDelivered s eventId instanceUri))
  /\ (forall maxAgeMs maxCount now,
         store_wf (pruneOldOutboxEvents s maxAgeMs maxCount now).2)
  /\ (forall olderThan, store_wf (pruneOldDeliveries s olderThan).2).
Proof.
  intros (Hi & Ho & Hd). unfold store_wf. split; [|split; [|split]].
  - intros uri. simpl. split; [now apply keyed_delete | now split].
  - intros eventId instanceUri. unfold markDelivered.
    destruct (JSMap.get eventId (outbox s)) as [e|] eqn:Hg;
      [|exact (conj Hi (conj Ho Hd))].
    destruct (existsb (String.eqb instanceUri) (deliveredTo e));
      [exact (conj Hi (conj Ho Hd))|].
    cbn [instances outbox deliveryQueue]. split; [exact Hi|]. split; [|exact Hd].
    rewrite (keyed_get po_id _ _ _ Ho Hg).
    exact (keyed_set po_id (outbox s)
             {| po_id := po_id e; po_event := po_event e; po_created := po_created e;
                deliveredTo := deliveredTo e ++ [instanceUri] |} Ho).
  - intros maxAgeMs maxCount now.
    rewrite (pruneOldOutboxEvents_outbox s maxAgeMs maxCount now (proj1 Ho)).
    cbn [snd instances outbox deliveryQueue]. split; [exact Hi|]. split; [|exact Hd].
    rewrite delete_all_filter. now apply keyed_filter, keyed_filter.
  - intros olderThan. rewrite (pruneOldDeliveries_filter s olderThan (proj1 Hd)).
    cbn [snd instances outbox deliveryQueue]. split; [exact Hi|]. split; [exact Ho|].
    now apply keyed_filter.
Qed.

End StoreFacts.

(** A store with three events, created at 10, 30 and 20, and three attempts:
    one delivered and one pending, last tried at 20, and one failed, last
    tried at 90. *)
Definition scenarioStore : MemoryFederationStorage.t :=
  let ev id t :=
    {| po_id := id; po_event := forgedEvent; po_created := t; deliveredTo := [] |} in
  let att u id st t :=
    {| key := deliveryKey u id; pd_instanceUri := u; pd_eventId := id;
       pd_attemptCount := 1; pd_lastAttempt := t; pd_nextAttempt := t + 1000;
       pd_status := st; pd_lastError := None |} in
  let s := MemoryFederationStorage.new in
  let s := MemoryFederationStorage.saveOutboxEvent s (ev "https://a.example/outbox/1" 10) in
  let s := MemoryFederationStorage.saveOutboxEvent s (ev "https://a.example/outbox/2" 30) in
  let s := MemoryFederationStorage.saveOutboxEvent s (ev "https://a.example/outbox/3" 20) in
  let s :=
    MemoryFederationStorage.saveDeliveryAttempt s
      (att "https://b.example" "https://a.example/outbox/1" Status.delivered 20) in
  let s :=
    MemoryFederationStorage.saveDeliveryAttempt s
      (att "https://c.example" "https://a.example/outbox/1" Status.pending 20) in
  MemoryFederationStorage.saveDeliveryAttempt s
    (att "https://b.example" "https://a.example/outbox/2" Status.failed 90).

Lemma scenarioStore_wf : store_wf scenarioStore.
Proof.
  vm_compute. repeat split; repeat constructor; simpl; intuition discriminate.
Defined.

Lemma pruneOldDeliveries_removes_old_terminal_witness :
  JSMap.wf (MemoryFederationStorage.deliveryQueue scenarioStore)
  /\ (JSMap.size
        (MemoryFederationStorage.deliveryQueue
           (MemoryFederationStorage.pruneOldDeliveries scenarioStore 50).2)
      + (MemoryFederationStorage.pruneOldDeliveries scenarioStore 50).1)%nat
     = JSMap.size (MemoryFederationStorage.deliveryQueue scenarioStore).
Proof.
  split; [exact (proj1 (proj2 (proj2 scenarioStore_wf)))|].
  exact (proj1 (proj2 (proj2
           (pruneOldDeliveries_removes_old_terminal scenarioStore 50
              (proj1 (proj2 (proj2 scenarioStore_wf))))))).
Defined.

Lemma pruneOldOutboxEvents_bounds_witness :
  JSMap.wf (MemoryFederationStorage.outbox scenarioStore)
  /\ (JSMap.size
        (MemoryFederationStorage.outbox
           (MemoryFederationStorage.pruneOldOutboxEvents scenarioStore 85 1 100).2)
      <= 1)%nat.
Proof.
  split; [exact (proj1 (proj1 (proj2 scenarioStore_wf)))|].
  exact (proj1 (pruneOldOutboxEvents_bounds scenarioStore 85 1 100
                  (proj1 (proj1 (proj2 scenarioStore_wf))))).
Defined.

Lemma store_page_bounded_sorted_and_open_witness :
  keyed po_id (MemoryFederationStorage.outbox scenarioStore)
  /\ StronglySorted Z.le
       (map po_created
          (MemoryFederationStorage.getOutboxEvents scenarioStore (Some 2%nat)
             (Some "https://a.example/outbox/9"))).
Proof.
  split; [exact (proj1 (proj2 scenarioStore_wf))|].
  exact (proj1 (proj2 (proj2
           (store_page_bounded_sorted_and_open scenarioStore (Some 2%nat)
              (Some "https://a.example/outbox/9") (proj1 (proj2 scenarioStore_wf)))))).
Defined.

Lemma store_wf_pruning_operations_witness :
  store_wf scenarioStore
  /\ store_wf (MemoryFederationStorage.pruneOldOutboxEvents scenarioStore 85 1 100).2.
Proof.
  split; [exact scenarioStore_wf|].
  exact (proj1 (proj2 (proj2 (store_wf_pruning_operations scenarioStore scenarioStore_wf)))
           85 1%nat 100).
Defined.

Example scenarioStore_pruned :
  (MemoryFederationStorage.pruneOldDeliveries scenarioStore 50).1 = 1%nat
  /\ JSMap.keys
       (MemoryFederationStorage.deliveryQueue
          (MemoryFederationStorage.pruneOldDeliveries scenarioStore 50).2)
     = ["https://c.example:https://a.example/outbox/1";
        "https://b.example:https://a.example/outbox/2"]
  /\ (MemoryFederationStorage.pruneOldOutboxEvents scenarioStore 85 1 100).1 = 2%nat
  /\ JSMap.keys
       (MemoryFederationStorage.outbox
          (MemoryFederationStorage.pruneOldOutboxEvents scenarioStore 85 1 100).2)
     = ["https://a.example/outbox/2"]
  /\ map po_id
       (MemoryFederationStorage.getOutboxEvents scenarioStore (Some 2%nat)
          (Some "https://a.example/outbox/9"))
     = ["https://a.example/outbox/1"; "https://a.example/outbox/3"].
Proof. repeat split; vm_compute; reflexivity. Qed.

(** *** Tokens and content signatures (auth.ts) *)

Lemma prefix_app (p t : string) : String.prefix p (p +:+ t) = true.
Proof.
  induction p as [|a p IH]; simpl; [now destruct t|].
  destruct (ascii_dec a a); [exact IH | congruence].
Qed.

Lemma prefix_slice (p h : string) :
  String.prefix p h = true -> h = p +:+ String_slice (String.length p) h.
Proof.
  revert h. induction p as [|a p IH]; intros h; [reflexivity|].
  destruct h as [|b h]; simpl; [intros [=]|].
  destruct (ascii_dec a b) as [->|]; [|intros [=]].
  intros Hp.
  change (String b h = String b (p +:+ String_slice (String.length p) h)).
  f_equal. exact (IH h Hp).
Qed.

Lemma slice_app (p t : string) : String_slice (String.length p) (p +:+ t) = t.
Proof. induction p as [|a p IH]; [reflexivity | exact IH]. Qed.

Lemma append_assoc (a b c : string) : (a +:+ b) +:+ c = a +:+ (b +:+ c).
Proof.
  induction a as [|x a IH]; [reflexivity|].
  change (String x ((a +:+ b) +:+ c) = String x (a +:+ (b +:+ c))). now rewrite IH.
Qed.

Section AuthFacts.
Import Auth.

(** X7.  [extractToken] yields a token exactly for a header that is
    ["Bearer "] followed by that token; the token may be empty. *)
Theorem extractToken_bearer authHeader t :
  extractToken authHeader = Some t <-> authHeader = Some ("Bearer " +:+ t).
Proof.
  unfold extractToken. split.
  - destruct authHeader as [h|]; [|discriminate]. simpl.
    destruct (negb (String.eqb h "")); [|discriminate]. simpl.
    destruct (String.prefix "Bearer " h) eqn:Hp; [|discriminate].
    intros [= <-]. f_equal. exact (prefix_slice "Bearer " h Hp).
  - intros ->. cbn [truthy default from_option Datatypes.id]. rewrite prefix_app.
    change 7%nat with (String.length "Bearer "). now rewrite slice_app.
Qed.

(** X8.  A token is valid from its creation until 24 hours later, that
    instant included, and validating it then changes nothing; validated
    after that it is refused and forgotten, so that it is refused from then
    on at any time; creating a token leaves the other tokens as they are. *)
Theorem token_lifetime activeTokens directoryId uuid now :
  let issued := generateToken activeTokens directoryId uuid now in
  token issued.1 = uuid
  /\ Auth.directoryId issued.1 = directoryId
  /\ expiresAt issued.1 = now + 86400000
  /\ (forall t, t <= now + 86400000 ->
                validateToken issued.2 uuid t = (Some directoryId, issued.2))
  /\ (forall t t', now + 86400000 < t ->
                   (validateToken issued.2 uuid t).1 = None
                   /\ (validateToken (validateToken issued.2 uuid t).2 uuid t').1 = None)
  /\ (forall other t, other <> uuid ->
                      (validateToken issued.2 other t).1
                      = (validateToken activeTokens other t).1).
Proof.
  cbv zeta. unfold generateToken, validateToken, TOKEN_EXPIRY_MS. cbn [fst snd token expiresAt].
  split; [reflexivity|]. split; [reflexivity|]. split; [reflexivity|].
  rewrite JSMapFacts.get_set_eq. cbn [te_expiresAt te_directoryId].
  split; [|split].
  - intros t Ht. apply Z.ltb_ge in Ht. change (24 * 60 * 60 * 1000) with 86400000.
    now rewrite Ht.
  - intros t t' Ht. apply Z.ltb_lt in Ht. change (24 * 60 * 60 * 1000) with 86400000.
    rewrite Ht. cbn [fst snd]. now rewrite JSMapFacts.get_delete_eq.
  - intros other t Hne. rewrite JSMapFacts.get_set_ne by auto.
    destruct (JSMap.get other activeTokens) as [stored|]; [|reflexivity].
    now destruct (te_expiresAt stored <? t).
Qed.

Section ContentSignatures.
Context {E : Ethers} {L : JSString}.

(** X9.  A content signature made with a key verifies for the same author,
    content, date and parent when the author is the key's address up to
    letter case; a missing parent and an empty one are signed alike. *)
Theorem content_signature_round_trip {R : EthersRecovers E}
    privateKey addr author content published inReplyTo :
  Wallet_address privateKey = Ok addr ->
  toLowerCase addr = toLowerCase author ->
  exists sig,
    createContentSignature privateKey author content published inReplyTo = Ok sig
    /\ verifyContentSignature author content published inReplyTo sig = true
    /\ verifyContentSignature author content published
         (Some (default "" inReplyTo)) sig = true.
Proof.
  intros Hkey Hcase. unfold createContentSignature, verifyContentSignature.
  rewrite Hkey. eexists. split; [reflexivity|].
  assert (contentMessage author content published (Some (default "" inReplyTo))
          = contentMessage author content published inReplyTo) as -> by reflexivity.
  rewrite (recover_signed privateKey addr _ Hkey), Hcase.
  split; apply String.eqb_refl.
Qed.

(** X10.  The signed text joins the fields with ["|"] and nothing marks where
    a field ends: a bar inside the content reads as the end of the content,
    so a signature is judged alike for a content [c|d] published at [p] and
    for a content [c] published at [d|p]. *)
Theorem content_fields_are_not_delimited author c d published inReplyTo sig :
  verifyContentSignature author (c +:+ "|" +:+ d) published inReplyTo sig
  = verifyContentSignature author c (d +:+ "|" +:+ published) inReplyTo sig.
Proof.
  unfold verifyContentSignature.
  assert (contentMessage author (c +:+ "|" +:+ d) published inReplyTo
          = contentMessage author c (d +:+ "|" +:+ published) inReplyTo) as ->;
    [|reflexivity].
  unfold contentMessage. now rewrite !append_assoc.
Qed.

End ContentSignatures.

(** X11.  [requireAuth] lets a request through under the directory id of its
    token when the header is ["Bearer "] and a token created at most 24 hours
    before, and leaves the token table as it is; a header that is missing,
    of another form or with an empty token is refused as missing. *)
Theorem requireAuth_session activeTokens directoryId uuid now t :
  uuid <> "" ->
  directoryId <> "" ->
  t <= now + 86400000 ->
  let issued := generateToken activeTokens directoryId uuid now in
  Server.requireAuth issued.2 (Some ("Bearer " +:+ uuid)) t
  = (Server.Authorized directoryId, issued.2)
  /\ (forall header,
        (forall tok, tok <> "" -> header <> Some ("Bearer " +:+ tok)) ->
        Server.requireAuth issued.2 header t
        = (Server.Unauthorized "Missing authorization header", issued.2)).
Proof.
  intros Huuid Hdir Ht. cbv zeta. split.
  - unfold Server.requireAuth, extractToken. cbn [truthy default from_option Datatypes.id negb].
    rewrite prefix_app. change 7%nat with (String.length "Bearer ").
    rewrite slice_app.
    assert (("Bearer " +:+ uuid =? "")%string = false) as -> by reflexivity.
    cbn [truthy default from_option Datatypes.id negb]. apply String.eqb_neq in Huuid.
    rewrite Huuid. cbn [negb].
    unfold generateToken, validateToken, TOKEN_EXPIRY_MS. cbn [fst snd].
    rewrite JSMapFacts.get_set_eq. cbn [te_expiresAt te_directoryId].
    apply Z.ltb_ge in Ht. change (24 * 60 * 60 * 1000) with 86400000. rewrite Ht.
    cbn [truthy default from_option Datatypes.id]. apply String.eqb_neq in Hdir. now rewrite Hdir.
  - intros header Hh. unfold Server.requireAuth, extractToken.
    destruct (truthy header) eqn:Hth; [|reflexivity]. cbn [negb].
    destruct header as [h|]; [|discriminate]. cbn [default from_option Datatypes.id].
    destruct (String.prefix "Bearer " h) eqn:Hp; [|reflexivity].
    cbn [truthy]. destruct (String.eqb (String_slice 7 h) "") eqn:Htok; [reflexivity|].
    apply String.eqb_neq in Htok. destruct (Hh _ Htok).
    f_equal. exact (prefix_slice "Bearer " h Hp).
Qed.

End AuthFacts.

(** *** Content store: posts and challenges (storage/memory.ts) *)

Lemma append_inv_head (p a b : string) : p +:+ a = p +:+ b -> a = b.
Proof.
  induction p as [|c p IH]; [auto|].
  change (String c (p +:+ a) = String c (p +:+ b) -> a = b). intros [= Heq]. auto.
Qed.

Section ContentStoreFacts.
Import MemoryStorage.

(** X12.  A post is stored under the id [createPost] gives it,
    [asp:<instance>/posts/<first 8 characters of the UUID>], with the fields
    it was given; it is read back until deleted; [deletePost] answers whether
    there was a post under the id; posts under other ids are not touched. *)
Theorem post_round_trip s post uuid :
  let created := createPost s post uuid in
  let id := "asp:" +:+ instance s +:+ "/posts/" +:+ String.substring 0 8 uuid in
  created.1 = with_id post id
  /\ getPost created.2 id = Some created.1
  /\ (deletePost created.2 id).1 = true
  /\ getPost (deletePost created.2 id).2 id = None
  /\ (deletePost (deletePost created.2 id).2 id).1 = false
  /\ (forall other, other <> id ->
        getPost created.2 other = getPost s other
        /\ getPost (deletePost created.2 id).2 other = getPost s other).
Proof.
  cbv zeta. unfold createPost, getPost, deletePost, makePostId. cbn [fst snd posts].
  split; [reflexivity|]. split; [apply JSMapFacts.get_set_eq|].
  split; [unfold JSMap.has; now rewrite JSMapFacts.get_set_eq|].
  split; [apply JSMapFacts.get_delete_eq|].
  split; [unfold JSMap.has; now rewrite JSMapFacts.get_delete_eq|].
  intros other Hne.
  rewrite JSMapFacts.get_delete_ne by exact (not_eq_sym Hne).
  rewrite JSMapFacts.get_set_ne by exact (not_eq_sym Hne). now split.
Qed.

(** X13.  Only the first 8 characters of the UUID go into a post's id: two
    posts get the same id exactly when their UUIDs agree on these, and then
    the second takes the place of the first, which can no longer be read. *)
Theorem post_ids_collide_on_uuid_prefix s p1 u1 p2 u2 :
  let first := createPost s p1 u1 in
  let second := createPost first.2 p2 u2 in
  (post_id second.1 = post_id first.1
   <-> String.substring 0 8 u1 = String.substring 0 8 u2)
  /\ (String.substring 0 8 u1 = String.substring 0 8 u2 ->
      getPost second.2 (post_id first.1) = Some second.1
      /\ JSMap.keys (posts second.2) = JSMap.keys (posts first.2))
  /\ (String.substring 0 8 u1 <> String.substring 0 8 u2 ->
      getPost second.2 (post_id first.1) = Some first.1
      /\ getPost second.2 (post_id second.1) = Some second.1).
Proof.
  cbv zeta. unfold createPost, getPost, makePostId.
  cbn [fst snd posts instance post_id with_id].
  set (prefix := "asp:" +:+ instance s +:+ "/posts/").
  assert (forall a, "asp:" +:+ instance s +:+ "/posts/" +:+ a = prefix +:+ a) as Hp.
  { intros a. unfold prefix. now rewrite !append_assoc. }
  rewrite !Hp.
  assert (prefix +:+ String.substring 0 8 u2 = prefix +:+ String.substring 0 8 u1
          <-> String.substring 0 8 u1 = String.substring 0 8 u2) as Hiff.
  { split; [intros Heq; symmetry; exact (append_inv_head _ _ _ Heq) | now intros ->]. }
  split; [exact Hiff|]. split.
  - intros Heq. rewrite Heq. split; [apply JSMapFacts.get_set_eq|].
    rewrite JSMapFacts.keys_set.
    assert (JSMap.has (prefix +:+ String.substring 0 8 u2)
              (JSMap.set (prefix +:+ String.substring 0 8 u2)
                 (with_id p1 (prefix +:+ String.substring 0 8 u2)) (posts s)) = true) as ->;
      [|reflexivity].
    unfold JSMap.has. now rewrite JSMapFacts.get_set_eq.
  - intros Hne. split; [|apply JSMapFacts.get_set_eq].
    rewrite JSMapFacts.get_set_ne; [apply JSMapFacts.get_set_eq|].
    intros Heq. apply Hne. now apply Hiff.
Qed.

(** X14.  A challenge can be answered once, within 5 minutes, that instant
    included: the right answer is accepted and uses the challenge up; a wrong
    answer is refused and leaves the challenge to be answered; any answer
    that comes later is refused and removes the challenge; once used up or
    removed, every answer is refused. *)
Theorem challenge_is_single_use s directoryId uuid now :
  let issued := createChallenge s directoryId uuid now in
  let gone s' := forall answer t, verifyChallenge s' directoryId answer t = (false, s') in
  challenge issued.1 = uuid
  /\ expiresAt issued.1 = now + 300000
  /\ (forall t, t <= now + 300000 ->
                (verifyChallenge issued.2 directoryId uuid t).1 = true
                /\ gone (verifyChallenge issued.2 directoryId uuid t).2)
  /\ (forall t answer, t <= now + 300000 -> answer <> uuid ->
                       verifyChallenge issued.2 directoryId answer t = (false, issued.2))
  /\ (forall t answer, now + 300000 < t ->
                       (verifyChallenge issued.2 directoryId answer t).1 = false
                       /\ gone (verifyChallenge issued.2 directoryId answer t).2).
Proof.
  cbv zeta. unfold createChallenge, verifyChallenge.
  cbn [fst snd challenge expiresAt challenges with_challenges].
  rewrite JSMapFacts.get_set_eq. cbn [challenge expiresAt].
  change (5 * 60 * 1000) with 300000.
  split; [reflexivity|]. split; [reflexivity|]. split; [|split].
  - intros t Ht. apply Z.ltb_ge in Ht. rewrite Ht, String.eqb_refl.
    cbn [negb fst snd challenges with_challenges]. split; [reflexivity|].
    intros answer t'. now rewrite JSMapFacts.get_delete_eq.
  - intros t answer Ht Hne. apply Z.ltb_ge in Ht. rewrite Ht.
    assert (String.eqb uuid answer = false) as -> by (apply String.eqb_neq; auto).
    reflexivity.
  - intros t answer Ht. apply Z.ltb_lt in Ht. rewrite Ht.
    cbn [fst snd challenges with_challenges]. split; [reflexivity|].
    intros answer' t'. now rewrite JSMapFacts.get_delete_eq.
Qed.

End ContentStoreFacts.

(** *** Rate limiting (index.ts) *)

Section RateLimitFacts.
Import Server.

(** The requests of one client, in order; [times] are the instants of the
    calls. *)
Fixpoint requests (rateLimits : JSMap.t RateEntry) (identifier : string)
    (times : list Z) : list RateResult * JSMap.t RateEntry :=
  match times with
  | [] => ([], rateLimits)
  | now :: times' =>
      let '(r, rateLimits) := rateLimit rateLimits identifier now in
      let '(rs, rateLimits) := requests rateLimits identifier times' in
      (r :: rs, rateLimits)
  end.

Definition verdict (resetAt : Z) (k : nat) : RateResult :=
  {| allowed := (k <=? 60)%nat; remaining := (60 - k)%nat; rr_resetAt := resetAt |}.

Lemma requests_in_window rateLimits identifier entry times :
  JSMap.get identifier rateLimits = Some entry ->
  Forall (fun t => t <= resetAt entry) times ->
  (requests rateLimits identifier times).1
  = map (verdict (resetAt entry)) (seq (S (count entry)) (length times))
  /\ forall other, other <> identifier ->
       JSMap.get other (requests rateLimits identifier times).2
       = JSMap.get other rateLimits.
Proof.
  revert rateLimits entry. induction times as [|t times IH]; intros rateLimits entry Hg Hin.
  - simpl. split; [reflexivity | auto].
  - apply Forall_cons_iff in Hin as [Ht Hin]. cbn [requests].
    unfold rateLimit. rewrite Hg. apply Z.ltb_ge in Ht. rewrite Ht.
    cbn [count resetAt].
    specialize (IH (JSMap.set identifier {| count := S (count entry); resetAt := resetAt entry |}
                      rateLimits)
                   {| count := S (count entry); resetAt := resetAt entry |}
                   (JSMapFacts.get_set_eq _ _ _) Hin).
    cbn [count resetAt] in IH. destruct IH as [IH1 IH2].
    destruct (requests _ identifier times) as [rs rl] eqn:Hreq. cbn [fst snd] in *.
    split.
    + cbn [length seq map]. now rewrite IH1.
    + intros other Hne. rewrite IH2 by exact Hne.
      apply JSMapFacts.get_set_ne. auto.
Qed.

(** X15.  A client whose window has run out, or who is new, opens a window of
    one minute with its request; of the requests it makes until the window
    ends, that one included, the first 60 are allowed and the later ones are
    refused, each told how many are left and when the window ends; the
    counters of other clients do not change. *)
Theorem rate_window rateLimits identifier t0 times :
  match JSMap.get identifier rateLimits with
  | Some entry => resetAt entry < t0
  | None => True
  end ->
  Forall (fun t => t <= t0 + 60000) times ->
  (requests rateLimits identifier (t0 :: times)).1
  = map (verdict (t0 + 60000)) (seq 1 (S (length times)))
  /\ forall other, other <> identifier ->
       JSMap.get other (requests rateLimits identifier (t0 :: times)).2
       = JSMap.get other rateLimits.
Proof.
  intros Hfresh Hin.
  set (fresh := {| count := 0; resetAt := t0 + 60000 |}).
  set (opened := {| count := 1; resetAt := t0 + 60000 |}).
  set (table := JSMap.set identifier opened (JSMap.set identifier fresh rateLimits)).
  assert (rateLimit rateLimits identifier t0 = (verdict (t0 + 60000) 1, table)) as Hfirst.
  { unfold rateLimit.
    destruct (JSMap.get identifier rateLimits) as [entry|].
    - apply Z.ltb_lt in Hfresh. now rewrite Hfresh.
    - reflexivity. }
  cbn [requests]. rewrite Hfirst.
  destruct (requests_in_window table identifier opened times
              (JSMapFacts.get_set_eq _ _ _) Hin) as [H1 H2].
  cbn [count resetAt] in H1.
  destruct (requests table identifier times) as [rs rl]. cbn [fst snd] in *.
  split.
  - cbn [length seq map]. now rewrite H1.
  - intros other Hne. rewrite H2 by exact Hne. unfold table.
    rewrite !JSMapFacts.get_set_ne by auto. reflexivity.
Qed.

End RateLimitFacts.

(** ASCII lower-casing, for the scenarios. *)
Definition lowerAscii (c : ascii) : ascii :=
  let n := Ascii.nat_of_ascii c in
  if (65 <=? n)%nat && (n <=? 90)%nat then Ascii.ascii_of_nat (n + 32) else c.

Fixpoint lowerString (s : string) : string :=
  match s with
  | EmptyString => EmptyString
  | String c s' => String (lowerAscii c) (lowerString s')
  end.

Definition scenarioJSString : JSString := {| toLowerCase := lowerString |}.

Lemma content_signature_round_trip_witness :
  Wallet_address (Ethers := scenarioEthers) "k1" = Ok "addr:k1"
  /\ toLowerCase (JSString := scenarioJSString) "addr:k1"
     = toLowerCase (JSString := scenarioJSString) "ADDR:K1"
  /\ exists sig,
       Auth.createContentSignature (E := scenarioEthers) "k1" "ADDR:K1" "hello"
         "2025-02-01T00:00:00.000Z" None = Ok sig
       /\ Auth.verifyContentSignature (E := scenarioEthers) (L := scenarioJSString)
            "ADDR:K1" "hello" "2025-02-01T00:00:00.000Z" None sig = true
       /\ Auth.verifyContentSignature (E := scenarioEthers) (L := scenarioJSString)
            "ADDR:K1" "hello" "2025-02-01T00:00:00.000Z" (Some (default "" None)) sig
          = true.
Proof.
  split; [reflexivity|]. split; [reflexivity|].
  exact (content_signature_round_trip (E := scenarioEthers) (L := scenarioJSString)
           (R := scenarioEthers_recovers) "k1" "addr:k1" "ADDR:K1" "hello"
           "2025-02-01T00:00:00.000Z" None eq_refl eq_refl).
Defined.

Lemma requireAuth_session_witness :
  "3f2a" <> "" /\ "0xabc" <> "" /\ 1000 + 86400000 <= 1000 + 86400000
  /\ Server.requireAuth (Auth.generateToken [] "0xabc" "3f2a" 1000).2
       (Some ("Bearer " +:+ "3f2a")) (1000 + 86400000)
     = (Server.Authorized "0xabc", (Auth.generateToken [] "0xabc" "3f2a" 1000).2).
Proof.
  assert ("3f2a" <> "") as Hu by discriminate.
  assert ("0xabc" <> "") as Hd by discriminate.
  assert (1000 + 86400000 <= 1000 + 86400000) as Ht by lia.
  split; [exact Hu|]. split; [exact Hd|]. split; [exact Ht|].
  exact (proj1 (requireAuth_session [] "0xabc" "3f2a" 1000 (1000 + 86400000) Hu Hd Ht)).
Defined.

Lemma rate_window_witness :
  let times := repeat 30000 61 in
  match JSMap.get "203.0.113.7" [("203.0.113.7", {| Server.count := 75; Server.resetAt := 5 |})] with
  | Some entry => Server.resetAt entry < 10
  | None => True
  end
  /\ Forall (fun t => t <= 10 + 60000) times
  /\ map Server.allowed
       (requests [("203.0.113.7", {| Server.count := 75; Server.resetAt := 5 |})]
          "203.0.113.7" (10 :: times)).1
     = repeat true 60 ++ [false; false].
Proof.
  assert (match JSMap.get "203.0.113.7"
                  [("203.0.113.7", {| Server.count := 75; Server.resetAt := 5 |})] with
          | Some entry => Server.resetAt entry < 10
          | None => True
          end) as Hfresh by (vm_compute; reflexivity).
  assert (Forall (fun t => t <= 10 + 60000) (repeat 30000 61)) as Hin.
  { apply List.Forall_forall. intros t Ht. apply repeat_spec in Ht. subst t. lia. }
  split; [exact Hfresh|]. split; [exact Hin|].
  rewrite (proj1 (rate_window [("203.0.113.7", {| Server.count := 75; Server.resetAt := 5 |})]
                    "203.0.113.7" 10 (repeat 30000 61) Hfresh Hin)).
  reflexivity.
Defined.

(** *** Publishing: ids, signatures and the retention cap *)

Lemma delete_oldest {V} (n : nat) (q : JSMap.t V) :
  JSMap.wf q ->
  fold_left (fun q id => JSMap.delete id q) (take n (JSMap.keys q)) q = drop n q.
Proof.
  revert q. induction n as [|n IH]; intros q Hwf; [reflexivity|].
  destruct q as [|[k v] q]; [reflexivity|].
  unfold JSMap.wf in Hwf. simpl in Hwf. apply List.NoDup_cons_iff in Hwf as [Hk Hwf].
  cbn [JSMap.keys map fst take fold_left drop JSMap.delete].
  rewrite String.eqb_refl, delete_absent by exact Hk.
  exact (IH q Hwf).
Qed.

Lemma keys_delete_filter {V} (k : string) (q : JSMap.t V) :
  JSMap.keys (JSMap.delete k q)
  = List.filter (fun k' => negb (String.eqb k' k)) (JSMap.keys q).
Proof.
  induction q as [|[k0 v0] q IH]; simpl; [reflexivity|].
  destruct (String.eqb k0 k); simpl; now rewrite IH.
Qed.

Lemma has_keys {V W} (k : string) (q : JSMap.t V) (q' : JSMap.t W) :
  JSMap.keys q = JSMap.keys q' -> JSMap.has k q = JSMap.has k q'.
Proof.
  intros Hk. destruct (JSMap.has k q') eqn:Hh.
  - apply JSMapFacts.has_true. rewrite Hk. now apply JSMapFacts.has_true.
  - destruct (JSMap.has k q) eqn:Hh'; [|reflexivity].
    apply JSMapFacts.has_true in Hh'. rewrite Hk in Hh'.
    apply JSMapFacts.has_true in Hh'. congruence.
Qed.



Lemma keys_after_deletes (ids : list string) (s : MemoryFederationStorage.t)
    (q : JSMap.t OutboxEvent) :
  JSMap.keys (MemoryFederationStorage.outbox s) = JSMap.keys q ->
  JSMap.keys
    (MemoryFederationStorage.outbox
       (fold_left MemoryFederationStorage.deleteOutboxEvent ids s))
  = JSMap.keys (fold_left (fun q id => JSMap.delete id q) ids q).
Proof.
  revert s q. induction ids as [|id ids IH]; intros s q Hk; [exact Hk|].
  cbn [fold_left]. apply IH.
  cbn [MemoryFederationStorage.deleteOutboxEvent MemoryFederationStorage.outbox].
  now rewrite !keys_delete_filter, Hk.
Qed.

Section PublishFacts.
Context {World : Type} {H : Host World} {E : Ethers} {J : JSON}.
Implicit Types (m : FederationManager World) (w : World).

(** One step of the pruning loop of [publishEvent]. *)
Definition dropOldest m (id : string) : FederationManager World :=
  with_storage
    (with_outboxQueue m (JSMap.delete id (outboxQueue m)))
    (option_map (fun s => MemoryFederationStorage.deleteOutboxEvent s id) (storage m)).

Lemma dropOldest_fold ids m :
  let m' := fold_left dropOldest ids m in
  outboxQueue m' = fold_left (fun q id => JSMap.delete id q) ids (outboxQueue m)
  /\ storage m'
     = option_map (fun s => fold_left MemoryFederationStorage.deleteOutboxEvent ids s)
         (storage m)
  /\ config m' = config m /\ knownInstances m' = knownInstances m
  /\ outboxIdCounter m' = outboxIdCounter m /\ eventListeners m' = eventListeners m
  /\ deliveryQueue m' = deliveryQueue m.
Proof.
  cbv zeta. revert m. induction ids as [|id ids IH]; intros m.
  - simpl. repeat split. now destruct (storage m).
  - cbn [fold_left]. destruct (IH (dropOldest m id)) as (-> & -> & -> & -> & -> & -> & ->).
    simpl. repeat split. now destruct (storage m).
Qed.

(** The manager once the event is in the log and the log has been cut. *)
Definition published m (eventId : string) (oe : OutboxEvent) : FederationManager World :=
  let m := with_outboxIdCounter m (outboxIdCounter m + 1) in
  let m := with_outboxQueue m (JSMap.set eventId oe (outboxQueue m)) in
  let m := persistOutboxEvent m oe in
  if (1000 <? JSMap.size (outboxQueue m))%nat then
    fold_left dropOldest
      (take (JSMap.size (outboxQueue m) - 1000)%nat (JSMap.keys (outboxQueue m))) m
  else m.



Lemma published_log m eventId oe :
  JSMap.wf (outboxQueue m) ->
  let q := JSMap.set eventId oe (outboxQueue m) in
  outboxQueue (published m eventId oe) = drop (JSMap.size q - 1000) q
  /\ storage (published m eventId oe)
     = option_map
         (fun s =>
            fold_left MemoryFederationStorage.deleteOutboxEvent
              (take (JSMap.size q - 1000) (JSMap.keys q))
              (MemoryFederationStorage.saveOutboxEvent s
                 {| po_id := id oe; po_event := event oe; po_created := created oe;
                    deliveredTo := delivered oe |}))
         (storage m)
  /\ config (published m eventId oe) = config m
  /\ knownInstances (published m eventId oe) = knownInstances m
  /\ outboxIdCounter (published m eventId oe) = outboxIdCounter m + 1
  /\ eventListeners (published m eventId oe) = eventListeners m
  /\ deliveryQueue (published m eventId oe) = deliveryQueue m.
Proof.
  intros Hwf q. unfold published.
  set (m1 := with_outboxQueue (with_outboxIdCounter m (outboxIdCounter m + 1))
               (JSMap.set eventId oe
                  (outboxQueue (with_outboxIdCounter m (outboxIdCounter m + 1))))).
  assert (outboxQueue (persistOutboxEvent m1 oe) = q) as Hq.
  { unfold persistOutboxEvent. destruct (storage m1); reflexivity. }
  assert (storage (persistOutboxEvent m1 oe)
          = option_map
              (fun s =>
                 MemoryFederationStorage.saveOutboxEvent s
                   {| po_id := id oe; po_event := event oe; po_created := created oe;
                      deliveredTo := delivered oe |}) (storage m)) as Hs.
  { unfold persistOutboxEvent, m1. cbn [storage with_outboxQueue with_outboxIdCounter].
    destruct (storage m) eqn:Hst; cbn; rewrite ?Hst; reflexivity. }
  assert (config (persistOutboxEvent m1 oe) = config m
          /\ knownInstances (persistOutboxEvent m1 oe) = knownInstances m
          /\ outboxIdCounter (persistOutboxEvent m1 oe) = outboxIdCounter m + 1
          /\ eventListeners (persistOutboxEvent m1 oe) = eventListeners m
          /\ deliveryQueue (persistOutboxEvent m1 oe) = deliveryQueue m) as Hrest.
  { unfold persistOutboxEvent, m1. cbn [storage with_outboxQueue with_outboxIdCounter].
    destruct (storage m); cbn; repeat split. }
  rewrite Hq.
  destruct (1000 <? JSMap.size q)%nat eqn:Hlt.
  - destruct (dropOldest_fold (take (JSMap.size q - 1000) (JSMap.keys q))
                (persistOutboxEvent m1 oe)) as (-> & -> & -> & -> & -> & -> & ->).
    rewrite Hq, Hs. split; [apply delete_oldest; now apply JSMapFacts.wf_set|].
    split; [now destruct (storage m)|]. exact Hrest.
  - apply Nat.ltb_ge in Hlt.
    assert ((JSMap.size q - 1000)%nat = O) as -> by lia.
    rewrite Hq, Hs. split; [reflexivity|]. split; [now destruct (storage m)|]. exact Hrest.
Qed.


(** X17.  [publishEvent] keeps the newest 1000 events of the log: the event
    is put at the end of the log, or in the place of the event that had its
    id, and the events in front of the last 1000 are dropped; what is
    dropped from the log is deleted from the store, so a store that holds
    the ids of the log before holds the ids of the log after. *)
Theorem publishEvent_keeps_newest m t content w eventId :
  JSMap.wf (outboxQueue m) ->
  (publishEvent m t content w).1 = Ok eventId ->
  let m' := (publishEvent m t content w).2 in
  (exists oe,
     let q := JSMap.set eventId oe (outboxQueue m) in
     outboxQueue m' = drop (JSMap.size q - 1000) q)
  /\ JSMap.wf (outboxQueue m')
  /\ (JSMap.size (outboxQueue m') <= 1000)%nat
  /\ (forall s,
        storage m = Some s ->
        JSMap.keys (MemoryFederationStorage.outbox s) = JSMap.keys (outboxQueue m) ->
        exists s',
          storage m' = Some s'
          /\ JSMap.keys (MemoryFederationStorage.outbox s') = JSMap.keys (outboxQueue m')).
Proof.
  intros Hwf Hok. cbv zeta.
  assert (exists oe, id oe = eventId
                     /\ publishEvent m t content w = (Ok eventId, published m eventId oe))
    as (oe & Hid & Hpub).
  { revert Hok. unfold publishEvent, published.
    destruct (negb (enabled (config m))); [discriminate|].
    destruct (signEvent _ _) as [e|msg]; [|discriminate].
    cbn [fst]. intros [= <-]. eexists. split; [|reflexivity]. reflexivity. }
  rewrite Hpub. cbn [snd].
  destruct (published_log m eventId oe Hwf) as (Hq & Hs & _).
  set (q := JSMap.set eventId oe (outboxQueue m)) in *.
  assert (JSMap.wf q) as Hwfq by (now apply JSMapFacts.wf_set).
  split; [exists oe; exact Hq|]. rewrite Hq. split; [|split].
  - unfold JSMap.wf, JSMap.keys in *. rewrite <- (firstn_skipn (JSMap.size q - 1000) q) in Hwfq.
    rewrite map_app in Hwfq. now apply List.NoDup_app_remove_l in Hwfq.
  - unfold JSMap.size. rewrite length_drop. lia.
  - intros s Hst Hkeys. rewrite Hs, Hst. cbn [option_map]. eexists. split; [reflexivity|].
    rewrite <- (delete_oldest _ q Hwfq).
    apply keys_after_deletes. cbn [MemoryFederationStorage.saveOutboxEvent
                                     MemoryFederationStorage.outbox po_id].
    unfold q. rewrite Hid, !JSMapFacts.keys_set, (has_keys _ _ _ Hkeys), Hkeys.
    reflexivity.
Qed.


End PublishFacts.


Lemma publishEvent_keeps_newest_witness :
  let out :=
    publishEvent (H := scenarioHost 202) (E := scenarioEthers) (J := scenarioJSON)
      scenarioLog CommentDeleted scenarioPost [] in
  (JSMap.wf (outboxQueue scenarioLog) /\ out.1 = Ok "https://a.example/outbox/3")
  /\ JSMap.wf (outboxQueue out.2)
  /\ (JSMap.size (outboxQueue out.2) <= 1000)%nat.
Proof.
  assert (JSMap.wf (outboxQueue scenarioLog)) as Hwf.
  { vm_compute. repeat constructor; simpl; intuition discriminate. }
  assert ((publishEvent (H := scenarioHost 202) (E := scenarioEthers) (J := scenarioJSON)
             scenarioLog CommentDeleted scenarioPost []).1
          = Ok "https://a.example/outbox/3") as Hok by (vm_compute; reflexivity).
  cbv zeta. split; [auto|].
  pose proof (publishEvent_keeps_newest (H := scenarioHost 202) (E := scenarioEthers)
                (J := scenarioJSON) scenarioLog CommentDeleted scenarioPost []
                "https://a.example/outbox/3" Hwf Hok) as (_ & Hwf' & Hsize & _).
  split; [exact Hwf' | exact Hsize].
Defined.



(** *** Event ids: numbering across restarts *)











Section Numbering.
Context {World : Type} {H : Host World} {E : Ethers} {J : JSON}.
Implicit Types (m : FederationManager World) (w : World).











End Numbering.


(** *** Delivery queue: accounting and the successful push *)

Section DrainFacts.
Context {World : Type} {H : Host World}.
Implicit Types (m : FederationManager World) (w : World) (a : DeliveryAttempt)
  (r : DrainResult).

Lemma count_push_grows r res a :
  exists ds df : nat,
    processed (count_push r res a) = S (processed r)
    /\ succeeded (count_push r res a) = (succeeded r + ds)%nat
    /\ failed (count_push r res a) = (failed r + df)%nat
    /\ (ds + df <= 1)%nat.
Proof.
  unfold count_push. cbn [processed succeeded failed]. destruct (success res).
  - exists 1%nat, 0%nat. repeat split; lia.
  - destruct (MAX_RETRY_ATTEMPTS <=? S (attemptCount a))%nat;
      [exists 0%nat, 1%nat | exists 0%nat, 0%nat]; repeat split; lia.
Qed.

Lemma drainOne_counts now k a m w r :
  exists dp ds df : nat,
    processed (drainOne now (k, a) m w r).1.1 = (processed r + dp)%nat
    /\ succeeded (drainOne now (k, a) m w r).1.1 = (succeeded r + ds)%nat
    /\ failed (drainOne now (k, a) m w r).1.1 = (failed r + df)%nat
    /\ (ds + df <= dp)%nat
    /\ (dp <= if skipped now a then 0 else 1)%nat.
Proof.
  unfold drainOne, skipped.
  destruct (negb (Status.eqb (status a) Status.pending) || (now <? nextAttempt a)).
  - exists 0%nat, 0%nat, 0%nat. cbn. repeat split; lia.
  - destruct (findEvent m (da_eventId a)) as [oe|].
    + destruct (pushToInstance m (event oe) (da_instanceUri a) w) as [[res m1] w1].
      cbn [fst snd]. destruct (count_push_grows r res a) as (ds & df & -> & -> & -> & Hle).
      exists 1%nat, ds, df. repeat split; lia.
    + exists 0%nat, 0%nat, 0%nat. cbn. repeat split; lia.
Qed.

Lemma drainLoop_counts now entries m w r :
  exists dp ds df : nat,
    processed (drainLoop now entries m w r).1.1 = (processed r + dp)%nat
    /\ succeeded (drainLoop now entries m w r).1.1 = (succeeded r + ds)%nat
    /\ failed (drainLoop now entries m w r).1.1 = (failed r + df)%nat
    /\ (ds + df <= dp)%nat
    /\ (dp <= length (List.filter (fun kv => negb (skipped now (snd kv))) entries))%nat.
Proof.
  revert m w r. induction entries as [|[k a] entries IH]; intros m w r.
  - exists 0%nat, 0%nat, 0%nat. cbn. repeat split; lia.
  - rewrite drainLoop_cons.
    destruct (drainOne_counts now k a m w r) as (dp1 & ds1 & df1 & Hp1 & Hs1 & Hf1 & Hle1 & Hb1).
    destruct (IH (drainOne now (k, a) m w r).1.2 (drainOne now (k, a) m w r).2
                 (drainOne now (k, a) m w r).1.1)
      as (dp2 & ds2 & df2 & -> & -> & -> & Hle2 & Hb2).
    rewrite Hp1, Hs1, Hf1. exists (dp1 + dp2)%nat, (ds1 + ds2)%nat, (df1 + df2)%nat.
    cbn [List.filter snd]. destruct (skipped now a); cbn [negb length]; repeat split; lia.
Qed.

(** X21.  The figures [processDeliveryQueue] reports: every attempt counted
    as succeeded or failed is counted as processed, and no more attempts are
    processed than were pending and due when the cycle began. *)
Theorem drain_accounting m now w :
  let r := (processDeliveryQueue m now w).1.1 in
  (succeeded r + failed r <= processed r)%nat
  /\ (processed r
      <= length (List.filter (fun kv => negb (skipped now (snd kv))) (deliveryQueue m)))%nat.
Proof.
  cbv zeta. unfold processDeliveryQueue.
  destruct (drainLoop_counts now (deliveryQueue m) m w
              {| processed := 0; succeeded := 0; failed := 0 |})
    as (dp & ds & df & Hp & Hs & Hf & Hle & Hb).
  destruct (drainLoop now (deliveryQueue m) m w _) as [[r1 m1] w1].
  cbn [fst snd processed succeeded failed] in *. lia.
Qed.

(** The event with this id, as [find] sees it, lists the target. *)
Definition deliveredIn m (eventId target : string) : Prop :=
  exists oe, findEvent m eventId = Some oe /\ In target (delivered oe).

Lemma Set_add_In s x y : In y (Set_add s x) <-> In y s \/ y = x.
Proof.
  unfold Set_add. destruct (existsb (String.eqb x) s) eqn:Hex.
  - apply existsb_exists in Hex as [z [Hz Heq]]. apply String.eqb_eq in Heq. subst z.
    split; [tauto | intros [Hin | ->]; assumption].
  - rewrite in_app_iff. simpl. intuition.
Qed.

Lemma find_mutate_first (eventId eventId' u : string) (q : JSMap.t OutboxEvent) :
  List.find (fun e => String.eqb (id e) eventId')
    (JSMap.values
       (mutate_first (fun e => String.eqb (id e) eventId) (add_delivered u) q))
  = option_map (fun e => if String.eqb (id e) eventId then add_delivered u e else e)
      (List.find (fun e => String.eqb (id e) eventId') (JSMap.values q)).
Proof.
  induction q as [|[k v] q IH]; [reflexivity|].
  cbn [mutate_first]. destruct (String.eqb (id v) eventId) eqn:Hv.
  - cbn [JSMap.values map snd List.find add_delivered id].
    destruct (String.eqb (id v) eventId') eqn:Hv'.
    + cbn [option_map]. now rewrite Hv.
    + (* the mutated event is not the one looked for: the rest is as before *)
      destruct (decide (eventId = eventId')) as [<- | Hne]; [congruence|].
      clear IH. induction q as [|[k0 v0] q IH]; [reflexivity|].
      cbn [JSMap.values map snd List.find] in *.
      destruct (String.eqb (id v0) eventId') eqn:Hv0.
      * cbn [option_map]. apply String.eqb_eq in Hv0.
        assert (String.eqb (id v0) eventId = false) as ->; [|reflexivity].
        apply String.eqb_neq. congruence.
      * exact IH.
  - cbn [JSMap.values map snd List.find].
    destruct (String.eqb (id v) eventId') eqn:Hv'.
    + cbn [option_map]. now rewrite Hv.
    + exact IH.
Qed.

Lemma deliveredIn_mutate m m' eventId' target eventId u :
  outboxQueue m'
  = mutate_first (fun e => String.eqb (id e) eventId) (add_delivered u) (outboxQueue m) ->
  deliveredIn m eventId' target -> deliveredIn m' eventId' target.
Proof.
  intros Hq (oe & Hf & Hin). unfold deliveredIn, findEvent in *.
  rewrite Hq, find_mutate_first, Hf. cbn [option_map]. eexists. split; [reflexivity|].
  destruct (String.eqb (id oe) eventId); [|exact Hin].
  cbn [add_delivered delivered]. apply Set_add_In. now left.
Qed.

Lemma deliveredIn_frame m m' eventId target :
  outboxQueue m' = outboxQueue m ->
  deliveredIn m eventId target -> deliveredIn m' eventId target.
Proof. unfold deliveredIn, findEvent. now intros ->. Qed.

Lemma persist_outbox m :
  (forall i, outboxQueue (persistInstance m i) = outboxQueue m)
  /\ (forall oe, outboxQueue (persistOutboxEvent m oe) = outboxQueue m)
  /\ (forall k a, outboxQueue (persistDeliveryAttempt m k a) = outboxQueue m).
Proof.
  unfold persistInstance, persistOutboxEvent, persistDeliveryAttempt.
  destruct (storage m); repeat split.
Qed.

(** What one step does to the outbox: nothing, or one target more on one
    event. *)
Lemma drainOne_outbox now k a m w r :
  let m' := (drainOne now (k, a) m w r).1.2 in
  outboxQueue m' = outboxQueue m
  \/ outboxQueue m'
     = mutate_first (fun e => String.eqb (id e) (da_eventId a))
         (add_delivered (da_instanceUri a)) (outboxQueue m).
Proof.
  cbv zeta. unfold drainOne.
  destruct (negb (Status.eqb (status a) Status.pending) || (now <? nextAttempt a));
    [now left|].
  destruct (findEvent m (da_eventId a)) as [oe|]; [|now left].
  pose proof (pushToInstance_frame m (event oe) (da_instanceUri a) w) as [_ Ho].
  destruct (pushToInstance m (event oe) (da_instanceUri a) w) as [[res m1] w1].
  cbn [fst snd] in *. rewrite (proj2 (proj2 (persist_outbox _))).
  destruct (success res).
  - right. rewrite (proj1 (proj2 (persist_outbox _))). cbn. now rewrite Ho.
  - left. cbn. exact Ho.
Qed.

Lemma drainLoop_deliveredIn now entries m w r eventId target :
  deliveredIn m eventId target ->
  deliveredIn (drainLoop now entries m w r).1.2 eventId target.
Proof.
  revert m w r. induction entries as [|[k a] entries IH]; intros m w r Hd; [exact Hd|].
  rewrite drainLoop_cons. apply IH.
  destruct (drainOne_outbox now k a m w r) as [Hq | Hq].
  - eapply deliveredIn_frame; eassumption.
  - eapply deliveredIn_mutate; eassumption.
Qed.

Lemma prune_outbox now entries m :
  outboxQueue (fold_left (pruneOne now) entries m) = outboxQueue m.
Proof.
  revert m. induction entries as [|[k a] entries IH]; intros m; [reflexivity|].
  cbn [fold_left]. rewrite IH. unfold pruneOne.
  now destruct (negb (Status.eqb (status a) Status.pending)
                && (lastAttempt a <? now - 3600000)).
Qed.

Lemma persist_config m :
  (forall i, config (persistInstance m i) = config m)
  /\ (forall oe, config (persistOutboxEvent m oe) = config m)
  /\ (forall k a, config (persistDeliveryAttempt m k a) = config m).
Proof.
  unfold persistInstance, persistOutboxEvent, persistDeliveryAttempt.
  destruct (storage m); repeat split.
Qed.

Lemma discoverInstance_config m u w : config (discoverInstance m u w).1.2 = config m.
Proof.
  unfold discoverInstance.
  destruct (fetch_wellknown (wellKnownUrl u) w) as [[msg| |md] w']; cbn [fst snd].
  - now destruct (JSMap.get u (knownInstances m)).
  - reflexivity.
  - now rewrite (proj1 (persist_config _)).
Qed.

Lemma pushToInstance_config m e u w : config (pushToInstance m e u w).1.2 = config m.
Proof.
  unfold pushToInstance.
  destruct (negb (trustsInstance m u)); [reflexivity|].
  pose proof (discoverInstance_config m u w) as Hd.
  destruct (match JSMap.get u (knownInstances m) with
            | Some i => truthy (inbox i)
            | None => false
            end).
  - destruct (JSMap.get u (knownInstances m)) as [i|]; [|reflexivity].
    destruct (negb (truthy (inbox i))); [reflexivity|].
    destruct (fetch_inbox _ _ e w) as [[msg|st text] w']; cbn [fst snd].
    + now rewrite (proj1 (persist_config _)).
    + destruct (negb (response_ok st)); cbn [fst snd]; [reflexivity|].
      now rewrite (proj1 (persist_config _)).
  - destruct (discoverInstance m u w) as [[[i|] m'] w']; cbn [fst snd] in *; [|exact Hd].
    destruct (negb (truthy (inbox i))); [exact Hd|].
    destruct (fetch_inbox _ _ e w') as [[msg|st text] w'']; cbn [fst snd].
    + now rewrite (proj1 (persist_config _)).
    + destruct (negb (response_ok st)); cbn [fst snd]; [exact Hd|].
      now rewrite (proj1 (persist_config _)).
Qed.

Lemma drainOne_config now k a m w r : config (drainOne now (k, a) m w r).1.2 = config m.
Proof.
  unfold drainOne.
  destruct (negb (Status.eqb (status a) Status.pending) || (now <? nextAttempt a));
    [reflexivity|].
  destruct (findEvent m (da_eventId a)) as [oe|]; [|reflexivity].
  pose proof (pushToInstance_config m (event oe) (da_instanceUri a) w) as Hc.
  destruct (pushToInstance m (event oe) (da_instanceUri a) w) as [[res m1] w1].
  cbn [fst snd] in *. rewrite (proj2 (proj2 (persist_config _))).
  destruct (success res); [rewrite (proj1 (proj2 (persist_config _)))|]; exact Hc.
Qed.

Section AcceptingTarget.
Context (target : string).
Context (push_succeeds :
           forall m e w,
             trustsInstance m target = true ->
             success (pushToInstance m e target w).1.1 = true).

Lemma drainOne_accepting now k a m w r :
  trustsInstance m target = true ->
  skipped now a = false ->
  da_instanceUri a = target ->
  In (da_eventId a) (outboxIds m) ->
  exists res,
    success res = true
    /\ JSMap.get k (deliveryQueue (drainOne now (k, a) m w r).1.2)
       = Some (recordPush now res a)
    /\ deliveredIn (drainOne now (k, a) m w r).1.2 (da_eventId a) target.
Proof.
  intros Htrust Hskip Htarget Hev. unfold drainOne. unfold skipped in Hskip. rewrite Hskip.
  destruct (findEvent_Some _ _ Hev) as [oe Hfind]. rewrite Hfind, Htarget.
  pose proof (push_succeeds m (event oe) w Htrust) as Hok.
  pose proof (pushToInstance_frame m (event oe) target w) as [Hq Ho].
  destruct (pushToInstance m (event oe) target w) as [[res m1] w1].
  cbn [fst snd] in *. exists res. rewrite Hok. split; [reflexivity|]. split.
  - unfold persistDeliveryAttempt, persistOutboxEvent.
    repeat match goal with
           | |- context [match storage ?x with _ => _ end] => destruct (storage x)
           end; cbn; apply JSMapFacts.get_set_eq.
  - unfold deliveredIn, findEvent.
    rewrite (proj2 (proj2 (persist_outbox _))), (proj1 (proj2 (persist_outbox _))).
    cbn [outboxQueue with_outboxQueue with_deliveryQueue].
    rewrite find_mutate_first, Ho. unfold findEvent in Hfind. rewrite Hfind.
    cbn [option_map]. eexists. split; [reflexivity|].
    assert (String.eqb (id oe) (da_eventId a) = true) as ->.
    { apply find_some in Hfind. tauto. }
    cbn [add_delivered delivered]. apply Set_add_In. now right.
Qed.

Lemma drainLoop_accepting now entries k a m w r :
  trustsInstance m target = true ->
  List.NoDup (JSMap.keys entries) ->
  In (k, a) entries ->
  skipped now a = false ->
  da_instanceUri a = target ->
  In (da_eventId a) (outboxIds m) ->
  exists res,
    success res = true
    /\ JSMap.get k (deliveryQueue (drainLoop now entries m w r).1.2)
       = Some (recordPush now res a)
    /\ deliveredIn (drainLoop now entries m w r).1.2 (da_eventId a) target.
Proof.
  revert m w r. induction entries as [|[k0 a0] entries IH];
    intros m w r Htrust Hnd Hin Hskip Htarget Hev; [destruct Hin|].
  simpl in Hnd. apply List.NoDup_cons_iff in Hnd as [Hk0 Hnd].
  rewrite drainLoop_cons. destruct Hin as [Heq | Hin].
  - injection Heq as -> ->.
    destruct (drainOne_accepting now k a m w r Htrust Hskip Htarget Hev)
      as (res & Hs & Hg & Hd).
    exists res. split; [exact Hs|]. split.
    + rewrite drainLoop_untouched; [exact Hg|].
      intros a' Hin. exfalso. apply Hk0. change k with (fst (k, a')). now apply in_map.
    + now apply drainLoop_deliveredIn.
  - apply IH; try assumption.
    + rewrite (trustsInstance_config m); [exact Htrust | apply drainOne_config].
    + destruct (drainOne_frame now k0 a0 m w r) as [_ [-> _]]. exact Hev.
Qed.

(** X22.  A pending attempt that is due, for a trusted target that accepts
    every push of a manager that trusts it, and an event that is in the log: after the drain cycle the attempt is
    delivered, with one attempt more and dated by the cycle; the event lists
    the target among those it was delivered to; and no later cycle pushes
    the attempt again, whatever the time. *)
Theorem accepted_push_is_recorded m now w k a :
  trustsInstance m target = true ->
  JSMap.wf (deliveryQueue m) ->
  JSMap.get k (deliveryQueue m) = Some a ->
  skipped now a = false ->
  da_instanceUri a = target ->
  In (da_eventId a) (outboxIds m) ->
  let m' := (processDeliveryQueue m now w).1.2 in
  (exists a',
     JSMap.get k (deliveryQueue m') = Some a'
     /\ status a' = Status.delivered
     /\ attemptCount a' = S (attemptCount a)
     /\ lastAttempt a' = now
     /\ forall later, skipped later a' = true)
  /\ deliveredIn m' (da_eventId a) target.
Proof.
  intros Htrust Hwf Hg Hskip Htarget Hev. cbv zeta. fold (drained m now w).
  rewrite drained_unfold.
  set (r0 := {| processed := 0; succeeded := 0; failed := 0 |}).
  destruct (drainLoop_accepting now (deliveryQueue m) k a m w r0
              Htrust Hwf (JSMapFacts.get_Some_In _ _ _ Hg) Hskip Htarget Hev)
    as (res & Hs & Hg1 & Hd).
  set (m1 := (drainLoop now (deliveryQueue m) m w r0).1.2) in *.
  assert (JSMap.wf (deliveryQueue m1)) as Hwf1 by (now apply drainLoop_frame).
  split.
  - exists (recordPush now res a).
    split.
    + destruct (prune_either now (deliveryQueue m1) k m1) as [-> | [_ [a' [Hin Hp]]]];
        [exact Hg1|].
      apply (JSMapFacts.In_get _ _ _ Hwf1) in Hin. rewrite Hg1 in Hin.
      injection Hin as <-. now rewrite recordPush_not_prunable in Hp.
    + unfold recordPush. rewrite Hs. cbn. repeat split.
  - eapply deliveredIn_frame; [apply prune_outbox | exact Hd].
Qed.

End AcceptingTarget.

End DrainFacts.

Lemma scenario_push_succeeds (m : FederationManager ScenarioWorld) e w :
  trustsInstance m "https://c.example" = true ->
  success (pushToInstance (H := scenarioHost 202) m e "https://c.example" w).1.1 = true.
Proof.
  intros Htrust. unfold pushToInstance, discoverInstance. rewrite Htrust. cbn [negb].
  destruct (JSMap.get "https://c.example" (knownInstances m)) as [i|].
  - destruct (truthy (inbox i)) eqn:Hi.
    + rewrite Hi. reflexivity.
    + reflexivity.
  - reflexivity.
Qed.

Lemma accepted_push_is_recorded_witness :
  let k := deliveryKey "https://c.example" "https://a.example/outbox/1" in
  let a := newAttempt "https://c.example" "https://a.example/outbox/1" 0 in
  (trustsInstance scenarioQueued "https://c.example" = true
   /\ JSMap.wf (deliveryQueue scenarioQueued)
   /\ JSMap.get k (deliveryQueue scenarioQueued) = Some a
   /\ skipped 0 a = false
   /\ da_instanceUri a = "https://c.example"
   /\ In (da_eventId a) (outboxIds scenarioQueued))
  /\ deliveredIn (processDeliveryQueue (H := scenarioHost 202) scenarioQueued 0 []).1.2
       (da_eventId a) "https://c.example".
Proof.
  assert (trustsInstance scenarioQueued "https://c.example" = true) as Htrust
      by (vm_compute; reflexivity).
  assert (JSMap.wf (deliveryQueue scenarioQueued)) as Hwf
      by (vm_compute; repeat constructor; simpl; intuition discriminate).
  assert (JSMap.get (deliveryKey "https://c.example" "https://a.example/outbox/1")
            (deliveryQueue scenarioQueued)
          = Some (newAttempt "https://c.example" "https://a.example/outbox/1" 0)) as Hg
      by (vm_compute; reflexivity).
  assert (skipped 0 (newAttempt "https://c.example" "https://a.example/outbox/1" 0) = false)
    as Hskip by reflexivity.
  assert (In "https://a.example/outbox/1" (outboxIds scenarioQueued)) as Hev
      by (vm_compute; auto).
  cbv zeta. split; [repeat split; assumption|].
  exact (proj2 (accepted_push_is_recorded (H := scenarioHost 202) "https://c.example"
                  scenario_push_succeeds scenarioQueued 0 []
                  (deliveryKey "https://c.example" "https://a.example/outbox/1")
                  (newAttempt "https://c.example" "https://a.example/outbox/1" 0)
                  Htrust Hwf Hg Hskip eq_refl Hev)).
Defined.

(** *** Listeners, directory and subscriptions *)

Section RegistryFacts.
Context {World : Type}.
Implicit Types (m : FederationManager World) (listener : Listener World).

Lemma removeListener_first (before after : list (Listener World)) listener :
  ~ In (ref listener) (map ref before) ->
  removeListener (ref listener) (before ++ listener :: after) = before ++ after.
Proof.
  induction before as [|l before IH]; intros Hn; simpl.
  - now rewrite Nat.eqb_refl.
  - destruct (Nat.eqb (ref l) (ref listener)) eqn:Heq.
    + apply Nat.eqb_eq in Heq. exfalso. apply Hn. now left.
    + f_equal. apply IH. intros Hin. apply Hn. now right.
Qed.

Lemma removeListener_absent (listeners : list (Listener World)) (r : nat) :
  ~ In r (map ref listeners) -> removeListener r listeners = listeners.
Proof.
  induction listeners as [|l listeners IH]; intros Hn; simpl; [reflexivity|].
  destruct (Nat.eqb (ref l) r) eqn:Heq.
  - apply Nat.eqb_eq in Heq. exfalso. apply Hn. now left.
  - f_equal. apply IH. intros Hin. apply Hn. now right.
Qed.

(** X23.  [onEvent] registers the listener after those already registered.
    The function it answers removes the first registration of that listener
    and leaves every other listener in place, wherever the registration has
    come to stand; called when the listener is not registered, it changes
    nothing, so a second call is harmless. *)
Theorem unsubscribe_removes_one_registration m listener :
  let subscribed := (onEvent m listener).1 in
  let unsubscribe := (onEvent m listener).2 in
  eventListeners subscribed = eventListeners m ++ [listener]
  /\ (forall m' before after,
        eventListeners m' = before ++ listener :: after ->
        ~ In (ref listener) (map ref before) ->
        eventListeners (unsubscribe m') = before ++ after)
  /\ (forall m',
        ~ In (ref listener) (map ref (eventListeners m')) ->
        unsubscribe m' = m')
  /\ (~ In (ref listener) (map ref (eventListeners m)) ->
      unsubscribe subscribed = m /\ unsubscribe (unsubscribe subscribed) = m).
Proof.
  cbv zeta. unfold onEvent. cbn [fst snd]. split; [reflexivity|].
  assert (forall m' : FederationManager World,
             ~ In (ref listener) (map ref (eventListeners m')) ->
             with_eventListeners m' (removeListener (ref listener) (eventListeners m')) = m')
    as Hnoop.
  { intros m' Hn. rewrite removeListener_absent by exact Hn. now destruct m'. }
  split; [|split; [exact Hnoop|]].
  - intros m' before after -> Hn. cbn [eventListeners with_eventListeners].
    now apply removeListener_first.
  - intros Hn.
    assert (with_eventListeners (with_eventListeners m (eventListeners m ++ [listener]))
              (removeListener (ref listener)
                 (eventListeners (with_eventListeners m (eventListeners m ++ [listener]))))
            = m) as Hback.
    { cbn [eventListeners with_eventListeners].
      rewrite removeListener_first by exact Hn. rewrite app_nil_r. now destruct m. }
    split; [exact Hback|]. rewrite Hback. now apply Hnoop.
Qed.

End RegistryFacts.

Section DirectoryFacts.
Context {World : Type} {H : Host World}.
Implicit Types (m : FederationManager World) (w : World).

Lemma persistInstance_fields m i :
  config (persistInstance m i) = config m
  /\ knownInstances (persistInstance m i) = knownInstances m
  /\ outboxQueue (persistInstance m i) = outboxQueue m
  /\ outboxIdCounter (persistInstance m i) = outboxIdCounter m
  /\ eventListeners (persistInstance m i) = eventListeners m
  /\ deliveryQueue (persistInstance m i) = deliveryQueue m.
Proof. unfold persistInstance. destruct (storage m); repeat split. Qed.

(** The directory after a discovery: other entries as before, the instance
    found entered under its address. *)
Lemma discoverInstance_directory m instanceUri w :
  (forall other, other <> instanceUri ->
     JSMap.get other (knownInstances (discoverInstance m instanceUri w).1.2)
     = JSMap.get other (knownInstances m))
  /\ match (discoverInstance m instanceUri w).1.1 with
     | Some instance =>
         JSMap.get instanceUri (knownInstances (discoverInstance m instanceUri w).1.2)
         = Some instance
         /\ lastSeen instance = clock (discoverInstance m instanceUri w).2
         /\ lastError instance = None
     | None => True
     end.
Proof.
  unfold discoverInstance.
  destruct (fetch_wellknown (wellKnownUrl instanceUri) w) as [[msg| |md] w'];
    cbn [fst snd].
  - destruct (JSMap.get instanceUri (knownInstances m)) as [existing|];
      cbn [fst snd knownInstances with_knownInstances]; (split; [|exact I]).
    + intros other Hne. now apply JSMapFacts.get_set_ne.
    + reflexivity.
  - split; [reflexivity | exact I].
  - rewrite (proj1 (proj2 (persistInstance_fields _ _))).
    cbn [knownInstances with_knownInstances]. split.
    + intros other Hne. now apply JSMapFacts.get_set_ne.
    + split; [apply JSMapFacts.get_set_eq | split; reflexivity].
Qed.

(** X24.  [discoverInstance] changes nothing but the directory entry of the
    instance asked for and, on success, its record in the store.  A
    discovery that succeeds enters the instance under its address, seen now
    and without error; one that is answered with an error status changes
    nothing; one that throws notes the error on the entry if there is one,
    in memory only. *)
Theorem discoverInstance_outcome m instanceUri w :
  let out := discoverInstance m instanceUri w in
  let m' := out.1.2 in
  (config m' = config m /\ outboxQueue m' = outboxQueue m
   /\ outboxIdCounter m' = outboxIdCounter m /\ eventListeners m' = eventListeners m
   /\ deliveryQueue m' = deliveryQueue m)
  /\ (forall other, other <> instanceUri ->
        JSMap.get other (knownInstances m') = JSMap.get other (knownInstances m))
  /\ match out.1.1 with
     | Some instance =>
         JSMap.get instanceUri (knownInstances m') = Some instance
         /\ uri instance = instanceUri
         /\ lastSeen instance = clock out.2
         /\ lastError instance = None
     | None =>
         storage m' = storage m
         /\ (knownInstances m' = knownInstances m
             \/ exists existing msg,
                  JSMap.get instanceUri (knownInstances m) = Some existing
                  /\ JSMap.get instanceUri (knownInstances m')
                     = Some (set_lastError existing (Some msg)))
     end.
Proof.
  cbv zeta. unfold discoverInstance.
  destruct (fetch_wellknown (wellKnownUrl instanceUri) w) as [[msg| |md] w'];
    cbn [fst snd].
  - destruct (JSMap.get instanceUri (knownInstances m)) as [existing|] eqn:Hg;
      cbn [fst snd config outboxQueue outboxIdCounter eventListeners deliveryQueue
           knownInstances storage with_knownInstances].
    + split; [repeat split|]. split.
      * intros other Hne. now apply JSMapFacts.get_set_ne.
      * split; [reflexivity|]. right. exists existing, msg.
        split; [reflexivity | apply JSMapFacts.get_set_eq].
    + split; [repeat split|]. split; [reflexivity|]. split; [reflexivity | now left].
  - split; [repeat split|]. split; [reflexivity|]. split; [reflexivity | now left].
  - destruct (persistInstance_fields
                (with_knownInstances m
                   (JSMap.set instanceUri
                      {| uri := instanceUri; version := md_version md; inbox := md_inbox md;
                         outbox := md_outbox md;
                         trustMode := default closed (md_trustMode md);
                         lastSeen := clock w'; lastError := None |}
                      (knownInstances m)))
                {| uri := instanceUri; version := md_version md; inbox := md_inbox md;
                   outbox := md_outbox md; trustMode := default closed (md_trustMode md);
                   lastSeen := clock w'; lastError := None |})
      as (-> & -> & -> & -> & -> & ->).
    cbn [config outboxQueue outboxIdCounter eventListeners deliveryQueue knownInstances
         with_knownInstances].
    split; [repeat split|]. split.
    + intros other Hne. now apply JSMapFacts.get_set_ne.
    + split; [apply JSMapFacts.get_set_eq | repeat split].
Qed.

(** X25.  A push reaches the network only for a trusted target, and is
    reported as successful only when the target is trusted and its directory
    entry, as it stands after the call, advertises an inbox, was seen now and
    carries no error.  Neither outcome changes the configuration, the log,
    the delivery queue or the entry of another instance. *)
Theorem pushToInstance_outcome m e targetUri w :
  let out := pushToInstance m e targetUri w in
  let m' := out.1.2 in
  (config m' = config m /\ outboxQueue m' = outboxQueue m
   /\ deliveryQueue m' = deliveryQueue m)
  /\ (forall other, other <> targetUri ->
        JSMap.get other (knownInstances m') = JSMap.get other (knownInstances m))
  /\ (trustsInstance m targetUri = false ->
      out = (push_failure "Instance not trusted", m, w))
  /\ (success out.1.1 = true ->
      trustsInstance m targetUri = true
      /\ exists instance,
           JSMap.get targetUri (knownInstances m') = Some instance
           /\ truthy (inbox instance) = true
           /\ lastSeen instance = clock out.2
           /\ lastError instance = None).
Proof.
  cbv zeta.
  destruct (pushToInstance_frame m e targetUri w) as [Hdq Hoq].
  split; [split; [apply pushToInstance_config | split; [exact Hoq | exact Hdq]]|].
  unfold pushToInstance.
  destruct (trustsInstance m targetUri) eqn:Htrust; cbn [negb];
    [|split; [reflexivity|]; split; [reflexivity | discriminate]].
  assert (forall (m0 : FederationManager World) i,
             knownInstances (persistInstance m0 i) = knownInstances m0) as Hpk
      by (intros m0 i; apply persistInstance_fields).
  destruct (discoverInstance_directory m targetUri w) as (Hdother & Hdres).
  destruct (match JSMap.get targetUri (knownInstances m) with
            | Some i => truthy (inbox i)
            | None => false
            end) eqn:Hknown.
  - destruct (JSMap.get targetUri (knownInstances m)) as [i|] eqn:Hg; [|discriminate].
    rewrite Hknown. cbn [negb].
    destruct (fetch_inbox _ _ e w) as [[msg|st text] w']; cbn [fst snd].
    + rewrite Hpk. cbn [knownInstances with_knownInstances].
      split; [intros other Hne; now apply JSMapFacts.get_set_ne|].
      split; discriminate.
    + destruct (negb (response_ok st)); cbn [fst snd].
      * split; [reflexivity|]. split; discriminate.
      * rewrite Hpk. cbn [knownInstances with_knownInstances].
        split; [intros other Hne; now apply JSMapFacts.get_set_ne|].
        split; [discriminate|]. intros _. split; [reflexivity|].
        eexists. split; [apply JSMapFacts.get_set_eq|]. repeat split. exact Hknown.
  - destruct (discoverInstance m targetUri w) as [[[i|] m1] w1]; cbn [fst snd] in *.
    + destruct Hdres as (Hg1 & Hseen & Herr).
      destruct (truthy (inbox i)) eqn:Hinbox; cbn [negb].
      * destruct (fetch_inbox _ _ e w1) as [[msg|st text] w']; cbn [fst snd].
        -- rewrite Hpk. cbn [knownInstances with_knownInstances].
           split; [intros other Hne; rewrite JSMapFacts.get_set_ne by auto; auto|].
           split; discriminate.
        -- destruct (negb (response_ok st)); cbn [fst snd].
           ++ split; [exact Hdother|]. split; discriminate.
           ++ rewrite Hpk. cbn [knownInstances with_knownInstances].
              split; [intros other Hne; rewrite JSMapFacts.get_set_ne by auto; auto|].
              split; [discriminate|]. intros _. split; [reflexivity|].
              eexists. split; [apply JSMapFacts.get_set_eq|]. repeat split. exact Hinbox.
      * split; [exact Hdother|]. split; discriminate.
    + split; [exact Hdother|]. split; discriminate.
Qed.

(** X26.  [subscribeToInstance] succeeds exactly when the discovery succeeds
    and the instance does not advertise a closed federation; it then puts
    the instance on the allowlist and takes it off the blocklist, whatever
    it was before, and leaves the trust mode alone.  When it fails the
    configuration is as before. *)
Theorem subscribeToInstance_outcome m instanceUri w :
  let out := subscribeToInstance m instanceUri w in
  let m' := out.1.2 in
  let discovered := (discoverInstance m instanceUri w).1.1 in
  success out.1.1.1
  = match discovered with
    | Some d => match trustMode d with closed => false | _ => true end
    | None => false
    end
  /\ out.1.1.2 = discovered
  /\ mode (trust (config m')) = mode (trust (config m))
  /\ enabled (config m') = enabled (config m)
  /\ (success out.1.1.1 = true ->
      (instanceUri ∈ allowlistOf m') /\ (instanceUri ∉ blocklistOf m')
      /\ (forall other, other <> instanceUri ->
            ((other ∈ allowlistOf m') <-> (other ∈ allowlistOf m))
            /\ ((other ∈ blocklistOf m') <-> (other ∈ blocklistOf m))))
  /\ (success out.1.1.1 = false -> config m' = config m).
Proof.
  cbv zeta. unfold subscribeToInstance.
  pose proof (discoverInstance_config m instanceUri w) as Hc.
  destruct (discoverInstance m instanceUri w) as [[[d|] m1] w1]; cbn [fst snd] in *.
  - assert (forall m2 : FederationManager World,
               config m2 = config m ->
               mode (trust (config (allowInstance m2 instanceUri))) = mode (trust (config m))
               /\ enabled (config (allowInstance m2 instanceUri)) = enabled (config m)
               /\ (instanceUri ∈ allowlistOf (allowInstance m2 instanceUri))
               /\ (instanceUri ∉ blocklistOf (allowInstance m2 instanceUri))
               /\ (forall other, other <> instanceUri ->
                     ((other ∈ allowlistOf (allowInstance m2 instanceUri))
                      <-> (other ∈ allowlistOf m))
                     /\ ((other ∈ blocklistOf (allowInstance m2 instanceUri))
                         <-> (other ∈ blocklistOf m)))) as Hallow.
    { intros m2 H2. unfold allowlistOf, blocklistOf. rewrite allowInstance_config.
      unfold allowlistOf, blocklistOf. rewrite H2. cbn.
      repeat split; try set_solver. }
    destruct (trustMode d); cbn [fst snd success];
      (split; [reflexivity|]; split; [reflexivity|]);
      try (destruct (Hallow m1 Hc) as (Hm & He & Ha & Hb & Ho);
           split; [exact Hm|]; split; [exact He|]; split; [auto | discriminate]).
    rewrite Hc. repeat split; try discriminate.
  - cbn [success]. rewrite Hc. repeat split; try discriminate.
Qed.

End DirectoryFacts.
